(** * Remote cluster service: response envelope, topic registry, lifecycle

    A shallow embedding of [services/remotecluster/service.go] and the
    properties of its three parts:
    - [Response], the key/value reply of a peer and its two derived views;
    - the topic registry kept in [Service.topicListeners];
    - the lifecycle controller ([Start], [Shutdown], [resume], [pause]).

    Go maps are [gmap]s, the mutable receiver and the collaborators behind
    [ServerIface] are threaded through a state-and-panic monad, and the
    channels made by [make(chan struct{})] live in an explicit heap so that
    closing a channel twice is a visible fault.

    Every method body that touches the guarded fields runs under [mux], so
    a method is taken as one step; [Start] and [Shutdown] are the sequence
    of their steps.  Where Go leaves the order of a [range] over a map
    open, the order is an explicit argument and the properties are proved
    for every order. *)

From Stdlib Require Import Ascii.
From stdpp Require Import base strings gmap list fin_maps pretty.

Local Open Scope string_scope.
Local Open Scope list_scope.

(** ** Values stored in a [map[string]interface{}] *)

(** Dynamic values an [interface{}] slot of a [Response] can hold: the nil
    interface, booleans, integers, strings, and values whose type has an
    [Error() string] or a [String() string] method, which [%v] prints
    through that method.  Floats and composite values are left out; the
    properties below only use what a value renders to. *)
Inductive value : Type :=
  | VNil
  | VBool (b : bool)
  | VInt (n : Z)
  | VString (s : string)
  | VError (msg : string)
  | VStringer (str : string).

(** [fmt.Sprintf("%v", val)]. *)
Definition Sprintf_v (val : value) : string :=
  match val with
  | VNil => "<nil>"
  | VBool true => "true"
  | VBool false => "false"
  | VInt n => pretty n
  | VString s => s
  | VError msg => msg
  | VStringer str => str
  end.

(** [fmt.Sprintf("%s: %s", a, b)] at two string arguments. *)
Definition Sprintf_s_colon_s (a b : string) : string := a +:+ ": " +:+ b.

Definition is_string (val : value) : Prop := ∃ s, val = VString s.

(** ** Constants *)

(** Modelled from the spec: [model.STATUS_OK] is declared in package
    [model], outside this file; the spec gives the success sentinel as
    the status value "OK". *)
Definition STATUS_OK : string := "OK".

(** Modelled from the spec: [model.STATUS_FAIL] is declared in package
    [model], outside this file; the spec gives the failure sentinel as
    the status value "FAIL". *)
Definition STATUS_FAIL : string := "FAIL".

Definition ResponseErrorKey : string := "err".
Definition ResponseStatusOK : string := STATUS_OK.
Definition ResponseStatusFail : string := STATUS_FAIL.
Definition InvitationTopic : string := "invitation".
Definition PingTopic : string := "ping".

(** ** Response *)

(** [type Response map[string]interface{}].  Reading a nil map behaves as
    reading an empty one, so both are [∅]. *)
Abbreviation Response := (gmap string value).

Section Envelope.
(** [ResponseStatusKey = model.STATUS]: the literal is declared in package
    [model], outside this file, and is left as a parameter. *)
Variable ResponseStatusKey : string.

(** [func (r Response) String(key string) string] *)
Definition String (r : Response) (key : string) : string :=
  match r !! key with
  | Some val => Sprintf_v val
  | None => ""
  end.

(** [func (r Response) IsSuccess() bool] *)
Definition IsSuccess (r : Response) : bool :=
  String.eqb (String r ResponseStatusKey) ResponseStatusOK.

(** [func (r Response) Error() string] *)
Definition Error (r : Response) : string :=
  let status := String r ResponseStatusKey in
  if String.eqb status ResponseStatusFail
  then Sprintf_s_colon_s status (String r ResponseErrorKey)
  else "".
End Envelope.

(** ** A state-and-panic monad *)

(** A Go call either returns or panics; a panic carries its message. *)
Inductive result (A : Type) : Type :=
  | Ok (a : A)
  | Panic (msg : string).
Arguments Ok {A} a.
Arguments Panic {A} msg.

(** Computations over a mutable state [S] that may panic. *)
Definition M (S A : Type) : Type := S → result (A * S).

Definition ret {S A} (a : A) : M S A := λ s, Ok (a, s).

Definition bind {S A B} (m : M S A) (k : A → M S B) : M S B :=
  λ s, match m s with
       | Ok (a, s') => k a s'
       | Panic msg => Panic msg
       end.

Definition gets {S A} (f : S → A) : M S A := λ s, Ok (f s, s).
Definition modify {S} (f : S → S) : M S () := λ s, Ok ((), f s).
Definition panic {S A} (msg : string) : M S A := λ _, Panic msg.

Declare Scope go_scope.
Delimit Scope go_scope with go.
Notation "x <- m ; k" := (bind m (λ x, k))
  (at level 100, m at next level, right associativity) : go_scope.
Notation "m ;; k" := (bind m (λ _, k))
  (at level 100, right associativity) : go_scope.

(** [when b m] is [if b { m }]. *)
Definition when {S} (b : bool) (m : M S ()) : M S () :=
  if b then m else ret ().

(** A Go [error] result; [None] is [nil]. *)
Definition error : Type := option string.

(** ** Collaborators *)

(** [type ServerIface interface], seen from the service: [σ] is whatever
    state the host server keeps.  [AddClusterLeaderChangedListener] returns
    the handle of the registration; [Debug] is [GetLogger().Debug].
    [Config] and [GetStore] are not called in this file. *)
Class ServerIface (σ : Type) : Type := {
  IsLeader : σ → bool;
  AddClusterLeaderChangedListener : σ → string * σ;
  RemoveClusterLeaderChangedListener : string → σ → σ;
  Debug : string → σ → σ;
}.

(** ** Channels *)

Inductive chan_state : Type := Open | Closed.

(** A [chan struct{}] value: [None] is the nil channel, [Some a] the
    channel at address [a] of the heap. *)
Definition chan : Type := option nat.

(** A goroutine pool started by [resume], with the signal it watches. *)
Inductive pipeline : Type :=
  | PingLoop (done : chan)
  | SendLoop (done : chan).

Definition is_ping (p : pipeline) : bool :=
  match p with PingLoop _ => true | SendLoop _ => false end.

Definition is_send (p : pipeline) : bool :=
  match p with PingLoop _ => false | SendLoop _ => true end.

(** ** The service and the world it runs in *)

Section Service.
Context {σ : Type} `{!ServerIface σ}.
(** [type TopicListener func(msg, rc, resp) error]: the registry stores
    and returns listeners and never calls them. *)
Context {TopicListener : Type}.
(** [model.NewId] is declared in package [model], outside this file:
    [NewId k] is the id its call number [k] returns. *)
Variable NewId : nat → string.

Record topicListenerEntry : Type := {
  id : string;
  listener : TopicListener;
}.

(** A bucket [map[string]topicListenerEntry]; [None] is the nil map. *)
Local Abbreviation bucket := (option (gmap string topicListenerEntry)).

(** [_, ok := entries[key]] and [len(entries)], both defined on nil. *)
Definition entries_lookup (e : bucket) (key : string)
  : option topicListenerEntry :=
  match e with
  | Some m => m !! key
  | None => None
  end.

Definition entries_len (e : bucket) : nat :=
  match e with
  | Some m => size m
  | None => 0
  end.

(** [type Service struct], the fields guarded by [mux].  [send] and
    [httpClient] are set once by the constructor and only used by the
    pipelines.  [topicListeners] is never nil: the constructor makes it. *)
Record Service : Type := {
  active : bool;
  leaderListenerId : string;
  topicListeners : gmap string bucket;
  done : chan;
}.

(** Everything a method of the service can read or change. *)
Record World : Type := {
  server : σ;
  rcs : Service;
  (** the channels made so far, by address *)
  chans : list chan_state;
  (** [var disablePing bool] *)
  disablePing : bool;
  (** how often [model.NewId] has been called *)
  newIds : nat;
  (** the pipelines started so far, oldest first *)
  started : list pipeline;
}.

Definition with_server (f : σ → σ) (w : World) : World :=
  {| server := f (server w); rcs := rcs w; chans := chans w;
     disablePing := disablePing w; newIds := newIds w;
     started := started w |}.

Definition with_rcs (f : Service → Service) (w : World) : World :=
  {| server := server w; rcs := f (rcs w); chans := chans w;
     disablePing := disablePing w; newIds := newIds w;
     started := started w |}.

Definition with_chans (f : list chan_state → list chan_state) (w : World)
  : World :=
  {| server := server w; rcs := rcs w; chans := f (chans w);
     disablePing := disablePing w; newIds := newIds w;
     started := started w |}.

Definition with_disablePing (b : bool) (w : World) : World :=
  {| server := server w; rcs := rcs w; chans := chans w;
     disablePing := b; newIds := newIds w; started := started w |}.

Definition with_newIds (f : nat → nat) (w : World) : World :=
  {| server := server w; rcs := rcs w; chans := chans w;
     disablePing := disablePing w; newIds := f (newIds w);
     started := started w |}.

Definition with_started (f : list pipeline → list pipeline) (w : World)
  : World :=
  {| server := server w; rcs := rcs w; chans := chans w;
     disablePing := disablePing w; newIds := newIds w;
     started := f (started w) |}.

Definition set_active (b : bool) (s : Service) : Service :=
  {| active := b; leaderListenerId := leaderListenerId s;
     topicListeners := topicListeners s; done := done s |}.

Definition set_leaderListenerId (h : string) (s : Service) : Service :=
  {| active := active s; leaderListenerId := h;
     topicListeners := topicListeners s; done := done s |}.

Definition set_topicListeners (t : gmap string bucket) (s : Service)
  : Service :=
  {| active := active s; leaderListenerId := leaderListenerId s;
     topicListeners := t; done := done s |}.

Definition set_done (c : chan) (s : Service) : Service :=
  {| active := active s; leaderListenerId := leaderListenerId s;
     topicListeners := topicListeners s; done := c |}.

Local Open Scope go_scope.

(** *** Go primitives on channels *)

(** [make(chan struct{})]: a fresh open channel at the next address. *)
Definition make_chan : M World chan :=
  a <- gets (λ w, length (chans w));
  modify (with_chans (λ h, h ++ [Open]));;
  ret (Some a).

(** [close(c)]: panics on the nil channel and on a closed one. *)
Definition close (c : chan) : M World () :=
  match c with
  | None => panic "close of nil channel"
  | Some a =>
      h <- gets chans;
      match h !! a with
      | Some Open => modify (with_chans (λ h, <[a := Closed]> h))
      | Some Closed => panic "close of closed channel"
      | None => panic "close of a channel that was never made"
      end
  end.

(** *** Calls out of this file *)

(** [model.NewId()] *)
Definition model_NewId : M World string :=
  k <- gets newIds;
  modify (with_newIds S);;
  ret (NewId k).

(** Modelled from the spec: [pingLoop] is a method of [Service] defined
    in another file of the package; the spec says [resume] starts the
    ping pipeline, parameterized by the cancellation signal.  Starting it
    is recorded in [started]. *)
Definition pingLoop (done : chan) : M World () :=
  modify (with_started (λ l, l ++ [PingLoop done])).

(** Modelled from the spec: [sendLoop] is a method of [Service] defined
    in another file of the package; the spec says [resume] starts the
    send pipeline, parameterized by the cancellation signal.  Starting it
    is recorded in [started]. *)
Definition sendLoop (done : chan) : M World () :=
  modify (with_started (λ l, l ++ [SendLoop done])).

(** [rcs.server.GetLogger().Debug(msg)] *)
Definition logger_Debug (msg : string) : M World () :=
  modify (with_server (Debug msg)).

(** [rcs.server.AddClusterLeaderChangedListener(rcs.onClusterLeaderChange)] *)
Definition server_AddClusterLeaderChangedListener : M World string :=
  λ w, let (h, s) := AddClusterLeaderChangedListener (server w) in
       Ok (h, with_server (λ _, s) w).

(** [rcs.server.RemoveClusterLeaderChangedListener(h)] *)
Definition server_RemoveClusterLeaderChangedListener (h : string)
  : M World () :=
  modify (with_server (RemoveClusterLeaderChangedListener h)).

(** *** Constructor *)

(** The service [NewRemoteClusterService(server)] returns: inactive, no
    handle, an empty non-nil registry, a nil [done]. *)
Definition NewRemoteClusterService : Service :=
  {| active := false; leaderListenerId := "";
     topicListeners := ∅; done := None |}.

(** The world right after construction, on a server in state [s]. *)
Definition new_world (s : σ) (noPing : bool) : World :=
  {| server := s; rcs := NewRemoteClusterService; chans := [];
     disablePing := noPing; newIds := 0; started := [] |}.

(** *** Lifecycle *)

(** [func (rcs *Service) resume()] *)
Definition resume : M World () :=
  a <- gets (λ w, active (rcs w));
  if a then ret ()
  else
    modify (with_rcs (set_active true));;
    c <- make_chan;
    modify (with_rcs (set_done c));;
    noPing <- gets disablePing;
    when (negb noPing) (d <- gets (λ w, done (rcs w)); pingLoop d);;
    d <- gets (λ w, done (rcs w));
    sendLoop d;;
    logger_Debug "Remote Cluster Service active".

(** [func (rcs *Service) pause()] *)
Definition pause : M World () :=
  a <- gets (λ w, active (rcs w));
  if negb a then ret ()
  else
    modify (with_rcs (set_active false));;
    d <- gets (λ w, done (rcs w));
    close d;;
    modify (with_rcs (set_done None));;
    logger_Debug "Remote Cluster Service inactive".

(** [func (rcs *Service) onClusterLeaderChange()] *)
Definition onClusterLeaderChange : M World () :=
  leader <- gets (λ w, IsLeader (server w));
  if leader then resume else pause.

(** [func (rcs *Service) Start() error] *)
Definition Start : M World error :=
  h <- server_AddClusterLeaderChangedListener;
  modify (with_rcs (set_leaderListenerId h));;
  onClusterLeaderChange;;
  ret None.

(** [func (rcs *Service) Shutdown() error] *)
Definition Shutdown : M World error :=
  h <- gets (λ w, leaderListenerId (rcs w));
  server_RemoveClusterLeaderChangedListener h;;
  pause;;
  ret None.

(** *** Topic registry *)

Definition is_nil (e : bucket) : bool :=
  match e with
  | Some _ => false
  | None => true
  end.

(** [func (rcs *Service) AddTopicListener(topic, listener) string] *)
Definition AddTopicListener (topic : string) (listener : TopicListener)
  : M World string :=
  newId <- model_NewId;
  let entry := {| id := newId; listener := listener |} in
  t <- gets (λ w, topicListeners (rcs w));
  let (entries, ok) :=
    match t !! topic with
    | Some e => (e, true)
    | None => (None, false)
    end in
  when (negb ok || is_nil entries)
    (modify (with_rcs (set_topicListeners (<[topic := Some ∅]> t))));;
  t <- gets (λ w, topicListeners (rcs w));
  match t !! topic with
  | Some (Some m) =>
      modify (with_rcs (set_topicListeners
                          (<[topic := Some (<[id entry := entry]> m)]> t)))
  | _ => panic "assignment to entry in nil map"
  end;;
  ret (id entry).

(** The keys a [range] over a map yields, in some order the runtime
    picks: any arrangement of the keys of the map. *)
Definition range_order {V} (m : gmap string V) (order : list string)
  : Prop :=
  order ≡ₚ (map_to_list m).*1.

(** [delete(entries, key)], a no-op on nil. *)
Definition entries_delete (key : string) (e : bucket) : bucket :=
  match e with
  | Some m => Some (delete key m)
  | None => None
  end.

(** The loop of [RemoveTopicListener] over the topics in the order
    [range] yields them.  A bucket is a reference held by the registry,
    so deleting from it shows in [t]; the [break] ends the recursion. *)
Fixpoint RemoveTopicListener_range (order : list string)
    (listenerId : string) (t : gmap string bucket) : gmap string bucket :=
  match order with
  | [] => t
  | topic :: order' =>
      match t !! topic with
      | Some entries =>
          match entries_lookup entries listenerId with
          | Some _ =>
              let entries := entries_delete listenerId entries in
              let t := <[topic := entries]> t in
              if (entries_len entries =? 0)%nat then delete topic t else t
          | None => RemoveTopicListener_range order' listenerId t
          end
      | None => RemoveTopicListener_range order' listenerId t
      end
  end.

(** [func (rcs *Service) RemoveTopicListener(listenerId string)], with
    the order of its [range] made explicit. *)
Definition RemoveTopicListener (order : list string) (listenerId : string)
  : M World () :=
  t <- gets (λ w, topicListeners (rcs w));
  modify (with_rcs (set_topicListeners
                      (RemoveTopicListener_range order listenerId t))).

(** The loop of [getTopicListeners] over the bucket's keys in the order
    [range] yields them. *)
Fixpoint getTopicListeners_range (order : list string) (e : bucket)
    (listeners : list TopicListener) : list TopicListener :=
  match order with
  | [] => listeners
  | key :: order' =>
      match entries_lookup e key with
      | Some v => getTopicListeners_range order' e (listeners ++ [listener v])
      | None => getTopicListeners_range order' e listeners
      end
  end.

(** [func (rcs *Service) getTopicListeners(topic string) []TopicListener],
    with the order of its [range] made explicit.  The nil slice and the
    empty slice are both [[]]. *)
Definition getTopicListeners (order : list string) (topic : string)
  : M World (list TopicListener) :=
  t <- gets (λ w, topicListeners (rcs w));
  match t !! topic with
  | None => ret []
  | Some entries => ret (getTopicListeners_range order entries [])
  end.

(** [AddTopicListener] once per listener of [ls], on one topic; the ids
    come back in call order. *)
Fixpoint AddTopicListeners (topic : string) (ls : list TopicListener)
  : M World (list string) :=
  match ls with
  | [] => ret []
  | l :: ls' =>
      i <- AddTopicListener topic l;
      ids <- AddTopicListeners topic ls';
      ret (i :: ids)
  end.

(** *** Reachable states *)

(** The methods of the service. *)
Inductive call : Type :=
  | CallStart
  | CallShutdown
  | CallResume
  | CallPause
  | CallOnClusterLeaderChange
  | CallAddTopicListener (topic : string) (listener : TopicListener)
  | CallRemoveTopicListener (order : list string) (listenerId : string).

Definition exec (c : call) : M World () :=
  match c with
  | CallStart => Start;; ret ()
  | CallShutdown => Shutdown;; ret ()
  | CallResume => resume
  | CallPause => pause
  | CallOnClusterLeaderChange => onClusterLeaderChange
  | CallAddTopicListener topic listener =>
      AddTopicListener topic listener;; ret ()
  | CallRemoveTopicListener order listenerId =>
      RemoveTopicListener order listenerId
  end.

(** The worlds a freshly constructed service can get to: by calls of its
    methods that return, and by the collaborators moving on their own
    (leadership flips in the server, a test setting [disablePing]). *)
Inductive reachable : World → Prop :=
  | reach_new s noPing :
      reachable (new_world s noPing)
  | reach_call c w w' :
      reachable w → exec c w = Ok ((), w') → reachable w'
  | reach_server f w :
      reachable w → reachable (with_server f w)
  | reach_disablePing b w :
      reachable w → reachable (with_disablePing b w).

(** [done] is a live signal: a channel that was made and is not closed. *)
Definition live (w : World) : Prop :=
  ∃ a, done (rcs w) = Some a ∧ chans w !! a = Some Open.

(** [done] is the channel made last. *)
Definition newest (w : World) : Prop :=
  ∃ a, done (rcs w) = Some a ∧ S a = length (chans w).

(** How many ping and send pipelines have been started. *)
Definition pings (w : World) : nat := length (filter is_ping (started w)).
Definition sends (w : World) : nat := length (filter is_send (started w)).

(** *** Predicates on worlds *)

(** The lifecycle invariant in the form that is preserved step by step:
    either [done] is nil and the service is inactive, or the service is
    active and [done] is the channel made last, still open. *)
Definition lifecycle_inv (w : World) : Prop :=
  match done (rcs w) with
  | Some a =>
      active (rcs w) = true ∧ S a = length (chans w) ∧
      chans w !! a = Some Open
  | None => active (rcs w) = false
  end.

(** The world an inactive service is in after [resume]. *)
Definition resumed (w : World) : World :=
  let c : chan := Some (length (chans w)) in
  {| server := Debug "Remote Cluster Service active" (server w);
     rcs := set_done c (set_active true (rcs w));
     chans := chans w ++ [Open];
     disablePing := disablePing w;
     newIds := newIds w;
     started := (if disablePing w then started w
                 else started w ++ [PingLoop c]) ++ [SendLoop c] |}.

(** The world an active service whose [done] is at address [a] is in
    after [pause]. *)
Definition paused (a : nat) (w : World) : World :=
  {| server := Debug "Remote Cluster Service inactive" (server w);
     rcs := set_done None (set_active false (rcs w));
     chans := <[a := Closed]> (chans w);
     disablePing := disablePing w;
     newIds := newIds w;
     started := started w |}.

(** The entries registered for a topic, none when the bucket is absent
    or nil. *)
Definition bucket_of (topic : string) (w : World)
  : gmap string topicListenerEntry :=
  match topicListeners (rcs w) !! topic with
  | Some (Some m) => m
  | _ => ∅
  end.

(** The world after [AddTopicListener topic l]: one more id drawn, and
    the entry put under the new id into the topic's bucket, which starts
    empty when it was absent or nil. *)
Definition added (topic : string) (l : TopicListener) (w : World) : World :=
  let i := NewId (newIds w) in
  let m := bucket_of topic w in
  with_rcs (set_topicListeners
              (<[topic := Some (<[i := {| id := i; listener := l |}]> m)]>
                 (topicListeners (rcs w))))
           (with_newIds S w).

(** The world after the first critical section of [Start]: the listener
    is registered with the server and its handle stored. *)
Definition registered (w : World) : World :=
  let (h, s) := AddClusterLeaderChangedListener (server w) in
  with_rcs (set_leaderListenerId h) (with_server (λ _, s) w).

(** The world after the first line of [Shutdown]. *)
Definition unregistered (w : World) : World :=
  with_server (RemoveClusterLeaderChangedListener (leaderListenerId (rcs w)))
              w.

(** Two calls of [resume] in a row return and, between them, start one
    more ping pipeline and one more send pipeline. *)
Definition resume_twice_starts_both_once (w : World) : Prop :=
  ∃ w', (resume;; resume) w = Ok ((), w') ∧
        pings w' = S (pings w) ∧ sends w' = S (sends w).

(** No bucket of the registry [t] holds the listener id [i]. *)
Definition unknown_id (i : string) (t : gmap string bucket) : Prop :=
  map_Forall (λ _ e, entries_lookup e i = None) t.

(** Modelled from the spec: [model.NewId] is declared in package [model],
    outside this file; the spec has [AddTopicListener] generate "a
    globally unique id".  Here: the id the next call draws is held by no
    bucket of the registry. *)
Definition NewId_globally_unique (w : World) : Prop :=
  unknown_id (NewId (newIds w)) (topicListeners (rcs w)).

(** Every id in the registry was drawn from [model.NewId] earlier. *)
Definition ids_issued (w : World) : Prop :=
  ∀ topic e i,
    topicListeners (rcs w) !! topic = Some e →
    is_Some (entries_lookup e i) →
    ∃ k, k < newIds w ∧ i = NewId k.

(** The topic has no listeners: no bucket, a nil one or an empty one. *)
Definition no_listeners (topic : string) (w : World) : Prop :=
  match topicListeners (rcs w) !! topic with
  | Some e => entries_len e = 0
  | None => True
  end.
End Service.

Arguments topicListenerEntry : clear implicits.
Arguments Service : clear implicits.
Arguments World : clear implicits.

(** A bucket [map[string]topicListenerEntry]; [None] is the nil map. *)
Abbreviation bucket L := (option (gmap string (topicListenerEntry L))).
Arguments call : clear implicits.

(** ** A host server to run the service on *)

(** A minimal implementation of [ServerIface]: a leadership flag, the
    handles of the registered leadership listeners, and the debug log. *)
Record test_server : Type := {
  leader : bool;
  handles : list string;
  debug_log : list string;
}.

#[global] Instance test_server_iface : ServerIface test_server := {
  IsLeader s := leader s;
  AddClusterLeaderChangedListener s :=
    let h := "listener-" +:+ pretty (length (handles s)) in
    (h, {| leader := leader s; handles := h :: handles s;
           debug_log := debug_log s |});
  RemoveClusterLeaderChangedListener h s :=
    {| leader := leader s;
       handles := filter (λ h', negb (String.eqb h h')) (handles s);
       debug_log := debug_log s |};
  Debug msg s :=
    {| leader := leader s; handles := handles s;
       debug_log := debug_log s ++ [msg] |};
}.

Definition follower : test_server :=
  {| leader := false; handles := []; debug_log := [] |}.

Definition elected : test_server :=
  {| leader := true; handles := []; debug_log := [] |}.

(** An id generator for examples: the ids "id-0", "id-1", ... *)
Definition counter_NewId (k : nat) : string := "id-" +:+ pretty k.

(** A freshly constructed service on a [test_server], with listeners
    named by strings. *)
Definition fresh (s : test_server) (noPing : bool) : World test_server string :=
  new_world s noPing.

(** An inactive service that still holds a closed channel in [done]: no
    method leaves such a world behind, but the types allow it. *)
Definition stale : World test_server string :=
  {| server := follower;
     rcs := {| active := false; leaderListenerId := "";
               topicListeners := ∅; done := Some 0 |};
     chans := [Closed]; disablePing := false; newIds := 0; started := [] |}.

(** A service with one listener registered for the ping topic. *)
Definition one_listener : World test_server string :=
  {| server := follower;
     rcs := {| active := false; leaderListenerId := "";
               topicListeners :=
                 {[ PingTopic := Some {[ "id-0" := {| id := "id-0";
                                                      listener := "onPing" |} ]} ]};
               done := None |};
     chans := []; disablePing := false; newIds := 1; started := [] |}.

(** ** Further predicates on worlds *)

(** The signal a started pipeline watches. *)
Definition watched (p : pipeline) : chan :=
  match p with
  | PingLoop done => done
  | SendLoop done => done
  end.

Section Invariants.
Context {σ : Type} `{!ServerIface σ} {TopicListener : Type}.
Implicit Types (w : World σ TopicListener).

(** The only channel that may be open is the one in [done]. *)
Definition no_stray_open w : Prop :=
  ∀ a, chans w !! a = Some Open → done (rcs w) = Some a.

(** Every started pipeline watches a channel that was made. *)
Definition pipelines_on_made_chans w : Prop :=
  ∀ p, p ∈ started w → ∃ a, watched p = Some a ∧ (a < length (chans w))%nat.

(** The send pipelines in start order watch the channels in the order
    they were made, one each; the ping pipelines are no more than the
    channels. *)
Definition one_generation_per_chan w : Prop :=
  filter is_send (started w)
  = (λ a, SendLoop (Some a)) <$> seq 0 (length (chans w)) ∧
  (pings w ≤ length (chans w))%nat.

(** The lifecycle invariants together. *)
Definition lifecycle_sound w : Prop :=
  lifecycle_inv w ∧ no_stray_open w ∧ pipelines_on_made_chans w ∧
  one_generation_per_chan w.

(** No bucket of the registry is nil or empty. *)
Definition buckets_pruned w : Prop :=
  ∀ topic e, topicListeners (rcs w) !! topic = Some e →
             ∃ m, e = Some m ∧ m ≠ ∅.

(** Every entry is stored under its own id. *)
Definition keyed_by_id w : Prop :=
  ∀ topic e k x, topicListeners (rcs w) !! topic = Some e →
                 entries_lookup e k = Some x → id x = k.

(** No listener id is held by the buckets of two topics. *)
Definition ids_unique w : Prop :=
  ∀ topic1 topic2 e1 e2 i,
    topicListeners (rcs w) !! topic1 = Some e1 →
    topicListeners (rcs w) !! topic2 = Some e2 →
    is_Some (entries_lookup e1 i) → is_Some (entries_lookup e2 i) →
    topic1 = topic2.

(** Bucket [topic] holds the id [i], and no other bucket does. *)
Definition held_only_by (i topic : string) w : Prop :=
  is_Some (bucket_of topic w !! i) ∧
  ∀ topic' e, topic' ≠ topic → topicListeners (rcs w) !! topic' = Some e →
              entries_lookup e i = None.

(** The lifecycle part of a world: what [resume] and [pause] work on. *)
Definition same_lifecycle w w' : Prop :=
  active (rcs w') = active (rcs w) ∧ done (rcs w') = done (rcs w) ∧
  chans w' = chans w ∧ started w' = started w.

(** The registry part of a world: what the registry methods work on. *)
Definition same_registry w w' : Prop :=
  topicListeners (rcs w') = topicListeners (rcs w) ∧ newIds w' = newIds w.

(** The calls that drive the lifecycle, as opposed to the registry. *)
Definition lifecycle_call (c : call TopicListener) : bool :=
  match c with
  | CallAddTopicListener _ _ | CallRemoveTopicListener _ _ => false
  | _ => true
  end.
End Invariants.

(** A service that has become active on an elected server. *)
Definition leading : World test_server string :=
  resumed (fresh elected false).

(** A service with one listener on the ping topic and one on the
    invitation topic, registered in that order. *)
Definition two_topics : World test_server string :=
  added counter_NewId InvitationTopic "onInvite"
    (added counter_NewId PingTopic "onPing" (fresh follower false)).

(** * Properties *)

(** ** Response envelope *)

Section EnvelopeFacts.
Variable key : string.
Implicit Types (r : Response) (v : value).

Lemma String_lookup r k v : r !! k = Some v → String r k = Sprintf_v v.
Proof. unfold String. by intros ->. Qed.

Lemma String_missing r k : r !! k = None → String r k = "".
Proof. unfold String. by intros ->. Qed.

Lemma IsSuccess_iff r : IsSuccess key r = true ↔ String r key = "OK".
Proof. unfold IsSuccess. apply String.eqb_eq. Qed.

Lemma Error_eq_fail r :
  String r key = "FAIL" → Error key r = "FAIL: " +:+ String r ResponseErrorKey.
Proof. unfold Error. by intros ->. Qed.

Lemma Error_ne_fail r : String r key ≠ "FAIL" → Error key r = "".
Proof.
  unfold Error. intros Hne.
  by destruct (String.eqb_spec (String r key) ResponseStatusFail).
Qed.
End EnvelopeFacts.

(** C7.  When the status value renders as "FAIL" and the error key holds
    the string [x], [Error()] is "FAIL: " followed by [x]; when the status
    does not render as the failure sentinel, [Error()] is the empty
    string. *)
Theorem Error_fail_message (key : string) (r : Response) :
  (∀ v x, r !! key = Some v → Sprintf_v v = "FAIL" →
          r !! ResponseErrorKey = Some (VString x) →
          Error key r = "FAIL: " +:+ x) ∧
  (String r key ≠ ResponseStatusFail → Error key r = "").
Proof.
  split.
  - intros v x Hv Hfail Hx.
    rewrite Error_eq_fail by (by rewrite (String_lookup _ _ _ Hv)).
    by rewrite (String_lookup _ _ _ Hx).
  - apply Error_ne_fail.
Qed.

Lemma Error_fail_message_witness :
  Error "status" {[ "status" := VString "FAIL"; "err" := VString "x" ]}
    = "FAIL: x" ∧
  Error "status" {[ "status" := VString "pending" ]} = "".
Proof.
  split.
  - apply (proj1 (Error_fail_message "status" _) (VString "FAIL") "x");
      vm_compute; reflexivity.
  - apply (proj2 (Error_fail_message "status" _)); vm_compute; discriminate.
Defined.

(** C8.  A response without the status key, and more generally one whose
    status renders neither as "OK" nor as "FAIL", is not a success and
    has the empty string as its error. *)
Theorem other_status_not_success_no_error (key : string) (r : Response) :
  (r !! key = None → IsSuccess key r = false ∧ Error key r = "") ∧
  (String r key ≠ ResponseStatusOK → String r key ≠ ResponseStatusFail →
   IsSuccess key r = false ∧ Error key r = "").
Proof.
  assert (String r key ≠ ResponseStatusOK → String r key ≠ ResponseStatusFail →
          IsSuccess key r = false ∧ Error key r = "") as Hgen.
  { intros Hok Hfail. split; [|by apply Error_ne_fail].
    apply not_true_is_false. by rewrite IsSuccess_iff. }
  split; [|done].
  intros Hnone. apply Hgen; by rewrite (String_missing _ _ Hnone).
Qed.

Lemma other_status_not_success_no_error_witness :
  (IsSuccess "status" {[ "err" := VString "x" ]} = false ∧
   Error "status" {[ "err" := VString "x" ]} = "") ∧
  (IsSuccess "status" {[ "status" := VString "ok"; "err" := VString "x" ]}
     = false ∧
   Error "status" {[ "status" := VString "ok"; "err" := VString "x" ]} = "").
Proof.
  split.
  - apply (proj1 (other_status_not_success_no_error "status" _)).
    vm_compute; reflexivity.
  - apply (proj2 (other_status_not_success_no_error "status" _));
      vm_compute; discriminate.
Defined.

(** C10.  The status is interpreted through its [%v] rendering: a response
    is a success exactly when the status key holds a value, of whatever
    dynamic type, that renders as "OK"; a status that renders as "FAIL"
    gives the error "FAIL: " followed by the rendering of the value under
    the error key (nothing when that key is missing). *)
Theorem status_read_through_rendering (key : string) (r : Response) :
  (IsSuccess key r = true ↔ ∃ v, r !! key = Some v ∧ Sprintf_v v = "OK") ∧
  (∀ v, r !! key = Some v → Sprintf_v v = "FAIL" →
        Error key r = "FAIL: " +:+ match r !! ResponseErrorKey with
                                   | Some e => Sprintf_v e
                                   | None => ""
                                   end).
Proof.
  split.
  - rewrite IsSuccess_iff. unfold String.
    destruct (r !! key) as [v|]; split.
    + eauto.
    + by intros (v' & [= <-] & ?).
    + discriminate.
    + by intros (v' & ? & ?).
  - intros v Hv Hfail.
    by rewrite Error_eq_fail by (by rewrite (String_lookup _ _ _ Hv)).
Qed.

Lemma status_read_through_rendering_witness :
  ¬ is_string (VStringer "OK") ∧
  IsSuccess "status" {[ "status" := VStringer "OK" ]} = true ∧
  Error "status" {[ "status" := VError "FAIL"; "err" := VInt 404 ]}
    = "FAIL: 404".
Proof.
  split; [by intros [s ?]|]. split.
  - apply (proj1 (status_read_through_rendering "status" _)).
    exists (VStringer "OK"). vm_compute. split; reflexivity.
  - etrans.
    + apply (proj2 (status_read_through_rendering "status" _) (VError "FAIL"));
        vm_compute; reflexivity.
    + vm_compute; reflexivity.
Defined.

(** ** Lifecycle *)

Section LifecycleFacts.
Context {σ : Type} `{!ServerIface σ} {TopicListener : Type}.
Implicit Types (w : World σ TopicListener).

Ltac run := cbv [resume pause onClusterLeaderChange Start Shutdown close
                 make_chan pingLoop sendLoop logger_Debug when
                 bind ret gets modify panic]; simpl.

Lemma resume_active w : active (rcs w) = true → resume w = Ok ((), w).
Proof. intros Ha. run. by rewrite Ha. Qed.

Lemma resume_inactive w :
  active (rcs w) = false → resume w = Ok ((), resumed w).
Proof.
  destruct w as [s [a h t d] ch [] n st]; simpl; by intros ->.
Qed.

Lemma pause_inactive w : active (rcs w) = false → pause w = Ok ((), w).
Proof. intros Ha. run. by rewrite Ha. Qed.

Lemma pause_active w a :
  active (rcs w) = true → done (rcs w) = Some a →
  chans w !! a = Some Open → pause w = Ok ((), paused a w).
Proof.
  destruct w as [s [b h t d] ch dp n st]; simpl.
  intros -> -> Hc. run. by rewrite Hc.
Qed.

Lemma onClusterLeaderChange_eq w :
  onClusterLeaderChange w = if IsLeader (server w) then resume w else pause w.
Proof. unfold onClusterLeaderChange, bind, gets. by destruct (IsLeader _). Qed.

Lemma Start_eq w :
  Start w = match onClusterLeaderChange (registered w) with
            | Ok (_, w') => Ok (None, w')
            | Panic msg => Panic msg
            end.
Proof.
  unfold Start, server_AddClusterLeaderChangedListener, registered, bind,
    modify, ret.
  destruct (AddClusterLeaderChangedListener (server w)) as [h s].
  by destruct (onClusterLeaderChange _) as [[[] w']|].
Qed.

Lemma Shutdown_eq w :
  Shutdown w = match pause (unregistered w) with
               | Ok (_, w') => Ok (None, w')
               | Panic msg => Panic msg
               end.
Proof.
  unfold Shutdown, server_RemoveClusterLeaderChangedListener, unregistered,
    bind, modify, gets, ret.
  by destruct (pause _) as [[[] w']|].
Qed.

(** The invariant only looks at [active], [done] and the channels. *)
Lemma lifecycle_inv_frame w w' :
  active (rcs w') = active (rcs w) → done (rcs w') = done (rcs w) →
  chans w' = chans w → lifecycle_inv w → lifecycle_inv w'.
Proof. unfold lifecycle_inv. by intros -> -> ->. Qed.

Lemma lifecycle_inv_new (s : σ) b :
  lifecycle_inv (new_world (TopicListener := TopicListener) s b).
Proof. done. Qed.

Lemma lifecycle_inv_resumed w : lifecycle_inv (resumed w).
Proof.
  unfold lifecycle_inv, resumed; simpl. split; [done|]. split.
  - rewrite length_app; simpl; lia.
  - by rewrite lookup_app_r, Nat.sub_diag.
Qed.

Lemma resume_ok w :
  lifecycle_inv w →
  ∃ w', resume w = Ok ((), w') ∧ lifecycle_inv w' ∧ active (rcs w') = true.
Proof.
  intros Hinv. destruct (active (rcs w)) eqn:Ha.
  - exists w. by rewrite resume_active.
  - exists (resumed w). rewrite resume_inactive by done.
    split; [done|]. split; [apply lifecycle_inv_resumed|done].
Qed.

Lemma pause_ok w :
  lifecycle_inv w →
  ∃ w', pause w = Ok ((), w') ∧ lifecycle_inv w' ∧ active (rcs w') = false.
Proof.
  intros Hinv. destruct (active (rcs w)) eqn:Ha.
  - unfold lifecycle_inv in Hinv.
    destruct (done (rcs w)) as [a|] eqn:Hd; [|congruence].
    destruct Hinv as (_ & _ & Hopen).
    exists (paused a w). by rewrite (pause_active w a).
  - exists w. rewrite pause_inactive by done. done.
Qed.

Lemma onClusterLeaderChange_ok w :
  lifecycle_inv w →
  ∃ w', onClusterLeaderChange w = Ok ((), w') ∧ lifecycle_inv w'.
Proof.
  intros Hinv. rewrite onClusterLeaderChange_eq.
  destruct (IsLeader (server w)).
  - destruct (resume_ok w Hinv) as (w' & ? & ? & _); eauto.
  - destruct (pause_ok w Hinv) as (w' & ? & ? & _); eauto.
Qed.

Lemma lifecycle_inv_registered w : lifecycle_inv w → lifecycle_inv (registered w).
Proof.
  unfold registered.
  destruct (AddClusterLeaderChangedListener (server w)) as [h s].
  by apply lifecycle_inv_frame.
Qed.

Lemma lifecycle_inv_unregistered w :
  lifecycle_inv w → lifecycle_inv (unregistered w).
Proof. by apply lifecycle_inv_frame. Qed.

Lemma Start_ok w :
  lifecycle_inv w → ∃ w', Start w = Ok (None, w') ∧ lifecycle_inv w'.
Proof.
  intros Hinv. rewrite Start_eq.
  destruct (onClusterLeaderChange_ok (registered w)) as (w' & -> & ?);
    eauto using lifecycle_inv_registered.
Qed.

Lemma Shutdown_ok w :
  lifecycle_inv w →
  ∃ w', Shutdown w = Ok (None, w') ∧ lifecycle_inv w' ∧
        active (rcs w') = false.
Proof.
  intros Hinv. rewrite Shutdown_eq.
  destruct (pause_ok (unregistered w)) as (w' & -> & ? & ?);
    eauto using lifecycle_inv_unregistered.
Qed.

(** What the lifecycle methods can do to a world when they return. *)
Lemma resume_cases w w' :
  resume w = Ok ((), w') → w' = w ∨ w' = resumed w.
Proof.
  destruct (active (rcs w)) eqn:Ha.
  - rewrite resume_active by done. intros [= <-]. by left.
  - rewrite resume_inactive by done. intros [= <-]. by right.
Qed.

Lemma pause_cases w w' :
  pause w = Ok ((), w') → w' = w ∨ ∃ a, w' = paused a w.
Proof.
  destruct (active (rcs w)) eqn:Ha.
  - destruct (done (rcs w)) as [a|] eqn:Hd.
    + destruct (chans w !! a) as [[]|] eqn:Hc.
      * rewrite (pause_active w a) by done. intros [= <-]. eauto.
      * destruct w as [s [b h t d] ch dp n st]; simpl in *; subst.
        run. by rewrite Hc.
      * destruct w as [s [b h t d] ch dp n st]; simpl in *; subst.
        run. by rewrite Hc.
    + destruct w as [s [b h t d] ch dp n st]; simpl in *; subst. by run.
  - rewrite pause_inactive by done. intros [= <-]. by left.
Qed.

(** The lifecycle methods leave the registry and the id supply alone. *)
Lemma resume_keeps_registry w w' :
  resume w = Ok ((), w') →
  topicListeners (rcs w') = topicListeners (rcs w) ∧ newIds w' = newIds w.
Proof. by intros [->| ->]%resume_cases. Qed.

Lemma pause_keeps_registry w w' :
  pause w = Ok ((), w') →
  topicListeners (rcs w') = topicListeners (rcs w) ∧ newIds w' = newIds w.
Proof. by intros [->|[a ->]]%pause_cases. Qed.

Lemma onClusterLeaderChange_keeps_registry w w' :
  onClusterLeaderChange w = Ok ((), w') →
  topicListeners (rcs w') = topicListeners (rcs w) ∧ newIds w' = newIds w.
Proof.
  rewrite onClusterLeaderChange_eq. destruct (IsLeader (server w)).
  - apply resume_keeps_registry.
  - apply pause_keeps_registry.
Qed.

Lemma Start_keeps_registry w w' r :
  Start w = Ok (r, w') →
  topicListeners (rcs w') = topicListeners (rcs w) ∧ newIds w' = newIds w.
Proof.
  rewrite Start_eq.
  destruct (onClusterLeaderChange (registered w)) as [[[] w'']|] eqn:Hrun;
    [|done].
  intros [= _ <-]. apply onClusterLeaderChange_keeps_registry in Hrun.
  unfold registered in Hrun.
  by destruct (AddClusterLeaderChangedListener (server w)).
Qed.

Lemma Shutdown_keeps_registry w w' r :
  Shutdown w = Ok (r, w') →
  topicListeners (rcs w') = topicListeners (rcs w) ∧ newIds w' = newIds w.
Proof.
  rewrite Shutdown_eq.
  destruct (pause (unregistered w)) as [[[] w'']|] eqn:Hrun; [|done].
  intros [= _ <-]. by apply pause_keeps_registry in Hrun.
Qed.
End LifecycleFacts.

(** ** Topic registry *)

Section RegistryFacts.
Context {σ : Type} `{!ServerIface σ} {TopicListener : Type}.
Variable NewId : nat → string.
Implicit Types (w : World σ TopicListener).
Implicit Types (t : gmap string (bucket TopicListener)).
Implicit Types (m : gmap string (topicListenerEntry TopicListener)).

Lemma AddTopicListener_eq topic l w :
  AddTopicListener NewId topic l w
  = Ok (NewId (newIds w), added NewId topic l w).
Proof.
  destruct w as [s [a h t d] ch dp n st].
  cbv [AddTopicListener model_NewId added bucket_of when bind ret gets
       modify panic]; simpl.
  destruct (t !! topic) as [[m|]|] eqn:Ht; simpl.
  - by rewrite Ht.
  - by rewrite lookup_insert_eq, insert_insert_eq.
  - by rewrite lookup_insert_eq, insert_insert_eq.
Qed.

Lemma RemoveTopicListener_eq order i w :
  RemoveTopicListener order i w
  = Ok ((), with_rcs (set_topicListeners
                        (RemoveTopicListener_range order i
                           (topicListeners (rcs w)))) w).
Proof. done. Qed.

(** Writing back the registry a service already has changes nothing. *)
Lemma with_rcs_same_registry w :
  with_rcs (set_topicListeners (topicListeners (rcs w))) w = w.
Proof. by destruct w as [s [a h t d] ch dp n st]. Qed.

(** An id that no bucket holds is not found, whatever the order. *)
Lemma RemoveTopicListener_range_unknown order i t :
  unknown_id i t → RemoveTopicListener_range order i t = t.
Proof.
  intros Hun. induction order as [|topic order IH]; simpl; [done|].
  destruct (t !! topic) as [e|] eqn:Ht; [|done].
  by rewrite (Hun topic e Ht).
Qed.

(** The loop stops at the one bucket that holds the id, once [range]
    gets to its topic. *)
Lemma RemoveTopicListener_range_found order i t topic m :
  topic ∈ order →
  t !! topic = Some (Some m) → is_Some (m !! i) →
  (∀ topic' e, topic' ≠ topic → t !! topic' = Some e →
               entries_lookup e i = None) →
  RemoveTopicListener_range order i t
  = if (size (delete i m) =? 0)%nat then delete topic t
    else <[topic := Some (delete i m)]> t.
Proof.
  intros Hin Ht [x Hx] Hothers.
  induction order as [|topic0 order IH]; [by apply elem_of_nil in Hin|].
  simpl. destruct (decide (topic0 = topic)) as [->|Hne].
  - rewrite Ht; simpl. rewrite Hx.
    destruct (size (delete i m) =? 0)%nat; [|done].
    by rewrite delete_insert_eq.
  - apply elem_of_cons in Hin as [?|Hin]; [congruence|].
    destruct (t !! topic0) as [e|] eqn:Ht0; [|by apply IH].
    rewrite (Hothers topic0 e Hne Ht0). by apply IH.
Qed.

Lemma range_order_elem {V} (g : gmap string V) order k :
  range_order g order → is_Some (g !! k) → k ∈ order.
Proof.
  unfold range_order. intros Hperm [x Hx]. rewrite Hperm.
  apply list_elem_of_fmap. exists (k, x). split; [done|].
  by apply elem_of_map_to_list.
Qed.

Lemma bucket_of_added topic l w :
  bucket_of topic (added NewId topic l w)
  = <[NewId (newIds w) := {| id := NewId (newIds w); listener := l |}]>
      (bucket_of topic w).
Proof. unfold bucket_of at 1, added; simpl. by rewrite lookup_insert_eq. Qed.

Lemma no_listeners_bucket_of topic w :
  no_listeners topic w → bucket_of topic w = ∅.
Proof.
  unfold no_listeners, bucket_of.
  destruct (topicListeners (rcs w) !! topic) as [[m|]|]; simpl; [|done..].
  apply map_size_empty_inv.
Qed.

(** The entries [AddTopicListeners] puts into the bucket: the ids in call
    order, each with its listener. *)
Lemma AddTopicListeners_eq topic ls w :
  ∃ w', AddTopicListeners NewId topic ls w
        = Ok (NewId <$> seq (newIds w) (length ls), w') ∧
        (NoDup (NewId <$> seq (newIds w) (length ls)) →
         Forall (λ i, bucket_of topic w !! i = None)
                (NewId <$> seq (newIds w) (length ls)) →
         map_to_list (bucket_of topic w')
         ≡ₚ zip_with (λ i l, (i, {| id := i; listener := l |}))
                     (NewId <$> seq (newIds w) (length ls)) ls
            ++ map_to_list (bucket_of topic w)).
Proof.
  revert w. induction ls as [|l ls IH]; intros w; simpl.
  - exists w. by split.
  - destruct (IH (added NewId topic l w)) as (w' & Hrun & Hbucket).
    exists w'. split.
    + unfold bind. rewrite AddTopicListener_eq, Hrun. done.
    + intros [Hnotin Hnodup]%NoDup_cons [Hfresh Hfreshs]%Forall_cons.
      simpl in Hbucket. rewrite Hbucket; [| done |].
      * rewrite bucket_of_added, map_to_list_insert by done.
        by rewrite <-Permutation_middle.
      * apply Forall_forall. intros i Hi.
        rewrite bucket_of_added, lookup_insert_ne by (by intros <-).
        by eapply Forall_forall in Hfreshs.
Qed.

Lemma getTopicListeners_range_eq order (e : bucket TopicListener) acc :
  getTopicListeners_range order e acc
  = acc ++ (listener <$> omap (entries_lookup e) order).
Proof.
  revert acc. induction order as [|k order IH]; intros acc; simpl.
  - by rewrite app_nil_r.
  - destruct (entries_lookup e k); simpl; [|done].
    by rewrite IH, <-app_assoc.
Qed.

Lemma omap_lookup_keys m :
  omap (m !!.) (map_to_list m).*1 = (map_to_list m).*2.
Proof.
  assert (Forall (λ kx, m !! kx.1 = Some kx.2) (map_to_list m)) as Hall.
  { apply Forall_forall. intros [k x]. apply elem_of_map_to_list. }
  induction Hall as [|[k x] kxs Hk _ IH]; [done|].
  rewrite !fmap_cons. simpl in *. rewrite Hk. by f_equal.
Qed.

(** [getTopicListeners] returns, and what it returns is an arrangement of
    the listeners in the bucket. *)
Lemma getTopicListeners_eq order topic w :
  range_order (bucket_of topic w) order →
  ∃ res, getTopicListeners order topic w = Ok (res, w) ∧
         res ≡ₚ listener <$> (map_to_list (bucket_of topic w)).*2.
Proof.
  unfold range_order, getTopicListeners, bucket_of, bind, gets, ret.
  intros Horder.
  destruct (topicListeners (rcs w) !! topic) as [[m|]|]; eexists;
    (split; [done|]); rewrite ?getTopicListeners_range_eq; simpl.
  - rewrite Horder. change (entries_lookup (Some m)) with (m !!.).
    by rewrite omap_lookup_keys.
  - rewrite map_to_list_empty in *. by apply Permutation_nil_r in Horder as ->.
  - by rewrite map_to_list_empty.
Qed.

Lemma zip_with_entries_listeners (ids : list string) (ls : list TopicListener) :
  length ids = length ls →
  listener <$> (zip_with (λ i l, (i, {| id := i; listener := l |})) ids ls).*2
  = ls.
Proof.
  revert ids. induction ls as [|l ls IH]; intros [|i ids] [=]; simpl; [done|].
  by rewrite IH.
Qed.

(** C5.  From a topic without listeners, and with pairwise distinct ids
    drawn, adding the listeners [ls] one by one returns as many ids, all
    distinct, without a fault, and [getTopicListeners] then returns as
    many listeners: those of [ls], in whatever order it walks them. *)
Theorem add_n_listeners topic ls w :
  no_listeners topic w →
  NoDup (NewId <$> seq (newIds w) (length ls)) →
  ∃ ids w',
    AddTopicListeners NewId topic ls w = Ok (ids, w') ∧
    length ids = length ls ∧ NoDup ids ∧
    ∀ order, range_order (bucket_of topic w') order →
      ∃ res, getTopicListeners order topic w' = Ok (res, w') ∧
             length res = length ls ∧ res ≡ₚ ls.
Proof.
  intros Hempty%no_listeners_bucket_of Hnodup.
  destruct (AddTopicListeners_eq topic ls w) as (w' & Hrun & Hbucket).
  eexists _, w'. split; [exact Hrun|].
  assert (length (NewId <$> seq (newIds w) (length ls)) = length ls) as Hlen
    by by rewrite length_fmap, length_seq.
  split; [done|]. split; [done|].
  intros order Horder.
  destruct (getTopicListeners_eq order topic w' Horder) as (res & Hget & Hres).
  exists res. split; [done|].
  assert (res ≡ₚ ls) as Hperm.
  { rewrite Hres, Hbucket; [|done|].
    - rewrite Hempty, map_to_list_empty, app_nil_r.
      by rewrite zip_with_entries_listeners.
    - rewrite Hempty. apply Forall_forall. intros i _. apply lookup_empty. }
  split; [by rewrite Hperm|done].
Qed.

(** Whatever the removal leaves in a bucket was in that bucket before. *)
Lemma RemoveTopicListener_range_sub order i t topic e j :
  RemoveTopicListener_range order i t !! topic = Some e →
  is_Some (entries_lookup e j) →
  ∃ e0, t !! topic = Some e0 ∧ is_Some (entries_lookup e0 j).
Proof.
  induction order as [|topic0 order IH]; simpl; [by eauto|].
  destruct (t !! topic0) as [e0|] eqn:Ht0; [|done].
  destruct (entries_lookup e0 i); [|done].
  assert (<[topic0 := entries_delete i e0]> t !! topic = Some e →
          is_Some (entries_lookup e j) →
          ∃ e1, t !! topic = Some e1 ∧ is_Some (entries_lookup e1 j)) as Hins.
  { destruct (decide (topic0 = topic)) as [->|Hne].
    - rewrite lookup_insert_eq. intros [= <-] Hj. exists e0. split; [done|].
      destruct e0 as [m|]; simpl in *; [|done].
      destruct Hj as [x Hx]. apply lookup_delete_Some in Hx as [_ Hx]. eauto.
    - rewrite lookup_insert_ne by done. eauto. }
  destruct (entries_len (entries_delete i e0) =? 0)%nat; [|done].
  intros Hdel. apply Hins.
  apply lookup_delete_Some in Hdel as [Hne Hdel]. done.
Qed.

(** C4.  When the topic has no bucket and the id drawn is new to the
    registry, adding a listener and then removing it by the returned id
    leaves no bucket for the topic, in whatever order the removal walks
    the topics; the registry is back to what it was. *)
Theorem add_then_remove_deletes_bucket topic l w :
  topicListeners (rcs w) !! topic = None →
  NewId_globally_unique NewId w →
  ∃ i w1,
    AddTopicListener NewId topic l w = Ok (i, w1) ∧
    is_Some (topicListeners (rcs w1) !! topic) ∧
    ∀ order, range_order (topicListeners (rcs w1)) order →
      ∃ w2, RemoveTopicListener order i w1 = Ok ((), w2) ∧
            topicListeners (rcs w2) !! topic = None ∧
            topicListeners (rcs w2) = topicListeners (rcs w).
Proof.
  intros Hnone Hnew.
  exists (NewId (newIds w)), (added NewId topic l w).
  split; [apply AddTopicListener_eq|].
  assert (bucket_of topic w = ∅) as Hb by (unfold bucket_of; by rewrite Hnone).
  assert (topicListeners (rcs (added NewId topic l w)) !! topic
          = Some (Some {[ NewId (newIds w) :=
                            {| id := NewId (newIds w); listener := l |} ]}))
    as Ht1.
  { unfold added; simpl. rewrite Hb. by rewrite lookup_insert_eq. }
  split; [by rewrite Ht1|].
  intros order Horder. eexists. split; [apply RemoveTopicListener_eq|].
  simpl.
  rewrite (RemoveTopicListener_range_found order _ _ topic _
             (range_order_elem _ _ _ Horder (mk_is_Some _ _ Ht1)) Ht1).
  - rewrite delete_singleton_eq. simpl.
    unfold added; simpl. rewrite delete_insert_eq, delete_id by done.
    by rewrite map_size_empty.
  - by rewrite lookup_singleton_eq.
  - intros topic' e Hne. unfold added; simpl.
    rewrite lookup_insert_ne by done. apply Hnew.
Qed.

(** C6.  Removing an id that no bucket holds returns without a fault and
    leaves the whole world, the registry included, as it was; the order
    of the walk does not matter. *)
Theorem remove_unknown_id_noop order i w :
  unknown_id i (topicListeners (rcs w)) →
  RemoveTopicListener order i w = Ok ((), w).
Proof.
  intros Hun. rewrite RemoveTopicListener_eq.
  rewrite RemoveTopicListener_range_unknown by done.
  by rewrite with_rcs_same_registry.
Qed.
End RegistryFacts.

(** ** Reachable states *)

Section ReachableFacts.
Context {σ : Type} `{!ServerIface σ} {TopicListener : Type}.
Variable NewId : nat → string.
Implicit Types (w : World σ TopicListener).

(** Every method returns from a world that satisfies the invariant, and
    hands on a world that satisfies it. *)
Lemma exec_ok c w :
  lifecycle_inv w → ∃ w', exec NewId c w = Ok ((), w') ∧ lifecycle_inv w'.
Proof.
  intros Hinv. destruct c as [| | | | |topic l|order i]; simpl; unfold bind, ret.
  - destruct (Start_ok w Hinv) as (w' & -> & ?); eauto.
  - destruct (Shutdown_ok w Hinv) as (w' & -> & ? & _); eauto.
  - destruct (resume_ok w Hinv) as (w' & ? & ? & _); eauto.
  - destruct (pause_ok w Hinv) as (w' & ? & ? & _); eauto.
  - by apply onClusterLeaderChange_ok.
  - rewrite AddTopicListener_eq. eexists. split; [done|].
    by apply (lifecycle_inv_frame w).
  - rewrite RemoveTopicListener_eq. eexists. split; [done|].
    by apply (lifecycle_inv_frame w).
Qed.

Lemma reachable_inv w : reachable NewId w → lifecycle_inv w.
Proof.
  induction 1 as [s b|c w w' _ IH Hexec|f w _ IH|b w _ IH].
  - apply lifecycle_inv_new.
  - destruct (exec_ok c w IH) as (w'' & Hexec' & ?). congruence.
  - by apply (lifecycle_inv_frame w).
  - by apply (lifecycle_inv_frame w).
Qed.

(** No method panics in a reachable world: in particular no [close] ever
    hits a nil or an already closed channel. *)
Lemma reachable_no_panic c w :
  reachable NewId w → ∃ w', exec NewId c w = Ok ((), w') ∧ reachable NewId w'.
Proof.
  intros Hreach.
  destruct (exec_ok c w (reachable_inv w Hreach)) as (w' & Hexec & _).
  exists w'. split; [done|]. by eapply reach_call.
Qed.

Lemma lifecycle_inv_live w :
  lifecycle_inv w → (active (rcs w) = true ↔ live w) ∧ (live w → newest w).
Proof.
  unfold lifecycle_inv, live, newest.
  destruct (done (rcs w)) as [a|].
  - intros (Ha & Hlen & Hopen). split; [split|]; eauto.
  - intros Ha. split; [split|].
    + congruence.
    + by intros (a & ? & _).
    + by intros (a & ? & _).
Qed.

(** C1.  In every world reachable from a freshly constructed service, by
    any calls of its methods and any moves of its collaborators, the
    service is active exactly when [done] holds a channel that is open,
    and that channel is then the one made last. *)
Theorem active_iff_done_live w :
  reachable NewId w →
  (active (rcs w) = true ↔ live w) ∧ (live w → newest w).
Proof. intros Hreach. by apply lifecycle_inv_live, reachable_inv. Qed.

(** C2.  On an inactive service [pause] returns and leaves the world as it
    was, channels included: the [close] is not run, whatever [done]
    holds. *)
Theorem pause_while_inactive_noop w :
  active (rcs w) = false → pause w = Ok ((), w).
Proof. apply pause_inactive. Qed.

(** Without the guard the [close] would fault on an inactive service whose
    [done] is nil or already closed. *)
Lemma close_faults_when_not_live w :
  ¬ live w → ∃ msg, close (done (rcs w)) w = Panic msg.
Proof.
  unfold live, close, bind, gets, panic. intros Hnot.
  destruct (done (rcs w)) as [a|]; [|eauto].
  destruct (chans w !! a) as [[]|] eqn:Hc; eauto.
  destruct Hnot; eauto.
Qed.

Lemma pings_resumed w :
  pings (resumed w) = if disablePing w then pings w else S (pings w).
Proof.
  unfold pings, resumed; simpl.
  destruct (disablePing w); rewrite !filter_app, !length_app; simpl; lia.
Qed.

Lemma sends_resumed w : sends (resumed w) = S (sends w).
Proof.
  unfold sends, resumed; simpl.
  destruct (disablePing w); rewrite !filter_app, !length_app; simpl; lia.
Qed.

(** C3, as amended.  Two calls of [resume] in a row both return, and the
    second leaves the world the first one made unchanged.  From an
    inactive service the pair starts the send pipeline once and the ping
    pipeline once, or not at all when [disablePing] is set, on a channel
    that is open and made last; from an active service neither call
    changes anything. *)
Theorem resume_resume_idempotent w :
  ∃ w1, resume w = Ok ((), w1) ∧ resume w1 = Ok ((), w1) ∧
        if active (rcs w) then w1 = w
        else sends w1 = S (sends w) ∧
             pings w1 = (if disablePing w then pings w else S (pings w)) ∧
             live w1 ∧ newest w1 ∧
             ∃ started_now,
               started w1 = started w ++ started_now ∧
               Forall (λ p, p = PingLoop (done (rcs w1)) ∨
                            p = SendLoop (done (rcs w1))) started_now.
Proof.
  destruct (active (rcs w)) eqn:Ha.
  - exists w. by rewrite resume_active.
  - exists (resumed w). rewrite resume_inactive by done.
    split; [done|]. split; [by apply resume_active|].
    split; [apply sends_resumed|]. split; [apply pings_resumed|].
    destruct (lifecycle_inv_live _ (lifecycle_inv_resumed w)) as [Hiff Hnew].
    assert (live (resumed w)) as Hlive by by apply Hiff.
    split; [done|]. split; [by apply Hnew|].
    unfold resumed; simpl. destruct (disablePing w).
    + eexists. split; [done|].
      apply Forall_cons_2; [by right|apply Forall_nil_2].
    + eexists. rewrite <-app_assoc. split; [done|].
      apply Forall_cons_2; [by left|].
      apply Forall_cons_2; [by right|apply Forall_nil_2].
Qed.

Lemma ids_issued_frame w w' :
  topicListeners (rcs w') = topicListeners (rcs w) ∧ newIds w' = newIds w →
  ids_issued NewId w → ids_issued NewId w'.
Proof. unfold ids_issued. by intros [-> ->]. Qed.

Lemma ids_issued_added topic l w :
  ids_issued NewId w → ids_issued NewId (added NewId topic l w).
Proof.
  intros Hiss topic' e i. unfold added; simpl.
  destruct (decide (topic = topic')) as [<-|Hne].
  - rewrite lookup_insert_eq. intros [= <-]; simpl.
    destruct (decide (NewId (newIds w) = i)) as [<-|Hi].
    + intros _. exists (newIds w). split; [lia|done].
    + rewrite lookup_insert_ne by done. unfold bucket_of.
      destruct (topicListeners (rcs w) !! topic) as [[m|]|] eqn:Ht;
        [|by intros [? ?]..].
      intros Hm. destruct (Hiss topic (Some m) i Ht Hm) as (k & ? & ?).
      exists k. split; [lia|done].
  - rewrite lookup_insert_ne by done. intros He Hi.
    destruct (Hiss topic' e i He Hi) as (k & ? & ?).
    exists k. split; [lia|done].
Qed.

Lemma ids_issued_removed order i w :
  ids_issued NewId w →
  ids_issued NewId
    (with_rcs (set_topicListeners
                 (RemoveTopicListener_range order i (topicListeners (rcs w))))
              w).
Proof.
  intros Hiss topic e j; simpl. intros He Hj.
  destruct (RemoveTopicListener_range_sub _ _ _ _ _ _ He Hj) as (e0 & ? & ?).
  by apply (Hiss topic e0 j).
Qed.

(** In a reachable world every id in the registry came from an earlier
    call of [model.NewId]. *)
Lemma reachable_ids_issued w : reachable NewId w → ids_issued NewId w.
Proof.
  induction 1 as [s b|c w w' _ IH Hexec|f w _ IH|b w _ IH].
  - intros topic e i. simpl. by rewrite lookup_empty.
  - destruct c as [| | | | |topic l|order i]; simpl in Hexec;
      unfold bind, ret in Hexec.
    + destruct (Start w) as [[r w'']|] eqn:Hrun; [|done].
      injection Hexec as <-.
      exact (ids_issued_frame w _ (Start_keeps_registry w w'' r Hrun) IH).
    + destruct (Shutdown w) as [[r w'']|] eqn:Hrun; [|done].
      injection Hexec as <-.
      exact (ids_issued_frame w _ (Shutdown_keeps_registry w w'' r Hrun) IH).
    + exact (ids_issued_frame w _ (resume_keeps_registry w w' Hexec) IH).
    + exact (ids_issued_frame w _ (pause_keeps_registry w w' Hexec) IH).
    + exact (ids_issued_frame w _
               (onClusterLeaderChange_keeps_registry w w' Hexec) IH).
    + rewrite AddTopicListener_eq in Hexec. injection Hexec as <-.
      by apply ids_issued_added.
    + rewrite RemoveTopicListener_eq in Hexec. injection Hexec as <-.
      by apply ids_issued_removed.
  - by apply (ids_issued_frame w).
  - by apply (ids_issued_frame w).
Qed.

(** So when [model.NewId] never repeats itself, the id it draws next is
    new to the registry of every reachable world. *)
Lemma reachable_NewId_globally_unique w :
  Inj (=) (=) NewId → reachable NewId w → NewId_globally_unique NewId w.
Proof.
  intros Hinj Hreach topic e He.
  destruct (entries_lookup e (NewId (newIds w))) as [x|] eqn:Hx; [|done].
  destruct (reachable_ids_issued w Hreach topic e _ He (mk_is_Some _ _ Hx))
    as (k & Hlt & Heq).
  apply Hinj in Heq. lia.
Qed.

(** C9.  [Shutdown] on a service that was never started takes the listener
    with the empty handle off the server and changes nothing else.  In
    every reachable world it returns without a fault, having taken the
    stored handle off the server and paused: the world it leaves has the
    service inactive and satisfies the lifecycle invariant, and when the
    service was inactive already only the server has changed. *)
Theorem Shutdown_safe :
  (∀ (s : σ) b,
     Shutdown (new_world (TopicListener := TopicListener) s b)
     = Ok (None, with_server (RemoveClusterLeaderChangedListener "")
                             (new_world s b))) ∧
  (∀ w, reachable NewId w →
     ∃ w', Shutdown w = Ok (None, w') ∧
           w' = match done (rcs w) with
                | Some a => paused a (unregistered w)
                | None => unregistered w
                end ∧
           active (rcs w') = false ∧ lifecycle_inv w' ∧
           reachable NewId w' ∧
           (active (rcs w) = false → w' = unregistered w)).
Proof.
  split; [done|].
  intros w Hreach. pose proof (reachable_inv w Hreach) as Hinv.
  destruct (Shutdown_ok w Hinv) as (w' & Hrun & Hinv' & Hoff).
  exists w'. split; [done|].
  assert (reachable NewId w') as Hreach'.
  { apply (reach_call NewId CallShutdown w); [done|].
    simpl. unfold bind, ret. by rewrite Hrun. }
  assert (w' = match done (rcs w) with
               | Some a => paused a (unregistered w)
               | None => unregistered w
               end) as Hw'.
  { rewrite Shutdown_eq in Hrun. unfold lifecycle_inv in Hinv.
    destruct (done (rcs w)) as [a|] eqn:Hd.
    - destruct Hinv as (Ha & _ & Hopen).
      rewrite (pause_active (unregistered w) a) in Hrun by done. congruence.
    - rewrite pause_inactive in Hrun by done. congruence. }
  repeat split; try done.
  intros Ha. rewrite Hw'. unfold lifecycle_inv in Hinv.
  destruct (done (rcs w)); [|done]. destruct Hinv; congruence.
Qed.
End ReachableFacts.

(** ** The properties at concrete worlds *)

Example Start_on_leader_then_Shutdown :
  (Start;; Shutdown)%go (fresh elected false)
  = Ok (None,
        {| server := {| leader := true; handles := [];
                        debug_log := ["Remote Cluster Service active";
                                      "Remote Cluster Service inactive"] |};
           rcs := {| active := false; leaderListenerId := "listener-0";
                     topicListeners := ∅; done := None |};
           chans := [Closed]; disablePing := false; newIds := 0;
           started := [PingLoop (Some 0); SendLoop (Some 0)] |}).
Proof. vm_compute. reflexivity. Qed.

Example Start_on_follower_stays_paused :
  Start (fresh follower false)
  = Ok (None,
        {| server := {| leader := false; handles := ["listener-0"];
                        debug_log := [] |};
           rcs := {| active := false; leaderListenerId := "listener-0";
                     topicListeners := ∅; done := None |};
           chans := []; disablePing := false; newIds := 0; started := [] |}).
Proof. vm_compute. reflexivity. Qed.

Example leadership_flip_restarts_once :
  ∃ w, (resume;; pause;; resume)%go (fresh elected false) = Ok ((), w) ∧
       chans w = [Closed; Open] ∧ done (rcs w) = Some 1 ∧
       started w = [PingLoop (Some 0); SendLoop (Some 0);
                    PingLoop (Some 1); SendLoop (Some 1)].
Proof. eexists. vm_compute. done. Qed.

Example String_renders_values :
  String {[ "n" := VInt (-42); "b" := VBool true; "z" := VNil ]} "n" = "-42" ∧
  String {[ "n" := VInt (-42); "b" := VBool true; "z" := VNil ]} "b" = "true" ∧
  String {[ "n" := VInt (-42); "b" := VBool true; "z" := VNil ]} "z" = "<nil>" ∧
  String {[ "n" := VInt (-42); "b" := VBool true; "z" := VNil ]} "q" = "".
Proof. vm_compute. done. Qed.

Example IsSuccess_ok :
  IsSuccess "status" {[ "status" := VString "OK" ]} = true ∧
  IsSuccess "status" {[ "status" := VString "ok" ]} = false ∧
  IsSuccess "status" ∅ = false.
Proof. vm_compute. done. Qed.

(** Why the id drawn has to be new: were [model.NewId] to repeat "id-0",
    removing by the returned id could hit the older entry of another
    topic and leave the new bucket in place. *)
Example repeated_id_removes_older_entry :
  ∃ i w1 w2,
    AddTopicListener (λ _, "id-0") InvitationTopic "onInvite" one_listener
    = Ok (i, w1) ∧
    RemoveTopicListener [PingTopic; InvitationTopic] i w1 = Ok ((), w2) ∧
    topicListeners (rcs w2) !! PingTopic = None ∧
    is_Some (topicListeners (rcs w2) !! InvitationTopic).
Proof.
  eexists _, _, _. split; [vm_compute; reflexivity|].
  split; [vm_compute; reflexivity|]. split; [vm_compute; reflexivity|].
  vm_compute. eauto.
Qed.

Example close_stale_faults :
  close (done (rcs stale)) stale = Panic "close of closed channel".
Proof. vm_compute. reflexivity. Qed.

Lemma active_iff_done_live_witness :
  reachable counter_NewId (resumed (fresh elected false)) ∧
  ((active (rcs (resumed (fresh elected false))) = true
    ↔ live (resumed (fresh elected false))) ∧
   (live (resumed (fresh elected false))
    → newest (resumed (fresh elected false)))).
Proof.
  assert (reachable counter_NewId (resumed (fresh elected false))) as Hreach.
  { apply (reach_call _ CallResume (fresh elected false)).
    - apply reach_new.
    - vm_compute. reflexivity. }
  split; [exact Hreach|].
  exact (active_iff_done_live counter_NewId _ Hreach).
Defined.

Lemma pause_while_inactive_noop_witness :
  active (rcs stale) = false ∧ pause stale = Ok ((), stale).
Proof.
  split; [reflexivity|].
  apply (pause_while_inactive_noop stale). reflexivity.
Defined.

(** C3, as first stated, fails: with [disablePing] set two calls of
    [resume] on a fresh service start no ping pipeline, and on a service
    that is already active they start no pipeline at all. *)
Lemma resume_pair_counterexample :
  ¬ resume_twice_starts_both_once (fresh elected true) ∧
  ¬ resume_twice_starts_both_once (resumed (fresh elected false)).
Proof.
  split; intros (w' & Hrun & Hpings & Hsends);
    vm_compute in Hrun; injection Hrun as <-;
    vm_compute in Hpings, Hsends; discriminate.
Qed.

Lemma Shutdown_safe_witness :
  reachable counter_NewId (fresh follower false) ∧
  ∃ w', Shutdown (fresh follower false) = Ok (None, w') ∧
        w' = match done (rcs (fresh follower false)) with
             | Some a => paused a (unregistered (fresh follower false))
             | None => unregistered (fresh follower false)
             end ∧
        active (rcs w') = false ∧ lifecycle_inv w' ∧
        reachable counter_NewId w' ∧
        (active (rcs (fresh follower false)) = false
         → w' = unregistered (fresh follower false)).
Proof.
  assert (reachable counter_NewId (fresh follower false)) as Hreach
    by apply reach_new.
  split; [exact Hreach|].
  exact (proj2 (Shutdown_safe counter_NewId) _ Hreach).
Defined.

Lemma add_then_remove_deletes_bucket_witness :
  topicListeners (rcs one_listener) !! InvitationTopic = None ∧
  NewId_globally_unique counter_NewId one_listener ∧
  ∃ i w1,
    AddTopicListener counter_NewId InvitationTopic "onInvite" one_listener
    = Ok (i, w1) ∧
    is_Some (topicListeners (rcs w1) !! InvitationTopic) ∧
    ∀ order, range_order (topicListeners (rcs w1)) order →
      ∃ w2, RemoveTopicListener order i w1 = Ok ((), w2) ∧
            topicListeners (rcs w2) !! InvitationTopic = None ∧
            topicListeners (rcs w2) = topicListeners (rcs one_listener).
Proof.
  assert (topicListeners (rcs one_listener) !! InvitationTopic = None) as Hnone
    by (vm_compute; reflexivity).
  assert (NewId_globally_unique counter_NewId one_listener) as Hnew.
  { apply map_Forall_singleton. vm_compute. reflexivity. }
  split; [exact Hnone|]. split; [exact Hnew|].
  exact (add_then_remove_deletes_bucket counter_NewId InvitationTopic
           "onInvite" one_listener Hnone Hnew).
Defined.

Lemma add_n_listeners_witness :
  no_listeners PingTopic (fresh follower false) ∧
  NoDup (counter_NewId <$> seq (newIds (fresh follower false)) 3) ∧
  ∃ ids w',
    AddTopicListeners counter_NewId PingTopic ["a"; "b"; "c"]
                      (fresh follower false) = Ok (ids, w') ∧
    length ids = 3 ∧ NoDup ids ∧
    ∀ order, range_order (bucket_of PingTopic w') order →
      ∃ res, getTopicListeners order PingTopic w' = Ok (res, w') ∧
             length res = 3 ∧ res ≡ₚ ["a"; "b"; "c"].
Proof.
  assert (no_listeners PingTopic (fresh follower false)) as Hempty
    by (vm_compute; exact I).
  assert (NoDup (counter_NewId <$> seq (newIds (fresh follower false)) 3))
    as Hnodup.
  { apply (bool_decide_unpack _). vm_compute. reflexivity. }
  split; [exact Hempty|]. split; [exact Hnodup|].
  exact (add_n_listeners counter_NewId PingTopic ["a"; "b"; "c"]
           (fresh follower false) Hempty Hnodup).
Defined.

Lemma remove_unknown_id_noop_witness :
  unknown_id "id-9" (topicListeners (rcs one_listener)) ∧
  RemoveTopicListener [PingTopic] "id-9" one_listener = Ok ((), one_listener).
Proof.
  assert (unknown_id "id-9" (topicListeners (rcs one_listener))) as Hun.
  { apply map_Forall_singleton. vm_compute. reflexivity. }
  split; [exact Hun|].
  exact (remove_unknown_id_noop [PingTopic] "id-9" one_listener Hun).
Defined.

(** * Further properties *)

(** ** Response envelope *)

Section EnvelopeMore.
Variable key : string.
Implicit Types (r : Response) (v : value).

Lemma Error_nonempty_on_fail r : String r key = "FAIL" → Error key r ≠ "".
Proof. intros Hfail. by rewrite Error_eq_fail. Qed.

(** A decimal never starts with a letter: the digits [pretty] puts in
    front of [s] leave the first character a digit, or that of [s]. *)
Lemma pretty_N_go_head (c : Ascii.ascii) x s :
  (∀ d, pretty_N_char d ≠ c) →
  (∀ t, s ≠ String.String c t) → ∀ t, pretty_N_go x s ≠ String.String c t.
Proof.
  intros Hdigit. revert s.
  induction (N.lt_wf_0 x) as [x _ IH]; intros s Hs t.
  destruct (decide (x = 0)%N) as [->|Hpos].
  - rewrite pretty_N_go_0. apply Hs.
  - rewrite pretty_N_go_step by lia. apply IH.
    + apply N.div_lt; lia.
    + intros t' [= Hc _]. by apply (Hdigit (x `mod` 10)%N).
Qed.

Lemma pretty_Z_head (c : Ascii.ascii) (n : Z) t :
  (∀ d, pretty_N_char d ≠ c) → c ≠ "-"%char → c ≠ "0"%char →
  pretty n ≠ String.String c t.
Proof.
  intros Hdigit Hdash Hzero. unfold pretty, pretty_Z.
  destruct n as [|x|x].
  - by intros [= ?].
  - unfold pretty, pretty_positive, pretty, pretty_N.
    destruct (decide _); [by intros [= ?]|].
    by apply pretty_N_go_head.
  - by intros [= ?].
Qed.

Lemma pretty_Z_not_sentinel (n : Z) : pretty n ≠ "OK" ∧ pretty n ≠ "FAIL".
Proof.
  split; apply pretty_Z_head; try done;
    intros d; unfold pretty_N_char; by repeat case_match.
Qed.

(** X1.  A response is never both: when [IsSuccess()] holds [Error()] is
    empty, and when [Error()] is not empty [IsSuccess()] is false. *)
Theorem success_excludes_error r :
  (IsSuccess key r = true → Error key r = "") ∧
  (Error key r ≠ "" → IsSuccess key r = false).
Proof.
  assert (IsSuccess key r = true → Error key r = "") as Hok.
  { intros Hs%IsSuccess_iff. apply Error_ne_fail. by rewrite Hs. }
  split; [done|].
  intros Herr. destruct (IsSuccess key r); [|done]. by destruct Herr; apply Hok.
Qed.

(** X2.  [Error()] is empty exactly when the status does not render as
    "FAIL": a failure always gives a non-empty text, even without a
    message. *)
Theorem Error_empty_iff_not_fail r :
  Error key r = "" ↔ String r key ≠ ResponseStatusFail.
Proof.
  split.
  - intros Hempty Hfail. by apply (Error_nonempty_on_fail r).
  - apply Error_ne_fail.
Qed.

(** X3.  A failure without the error key gives "FAIL: " and nothing
    after it. *)
Theorem Error_without_message r v :
  r !! key = Some v → Sprintf_v v = "FAIL" →
  r !! ResponseErrorKey = None →
  Error key r = "FAIL: ".
Proof.
  intros Hv Hfail Hnone.
  rewrite Error_eq_fail by (by rewrite (String_lookup _ _ _ Hv)).
  by rewrite (String_missing _ _ Hnone).
Qed.

(** X4.  Only the status key and the error key are read: setting or
    deleting any other key changes neither [IsSuccess()] nor [Error()]. *)
Theorem other_keys_ignored r k v :
  k ≠ key → k ≠ ResponseErrorKey →
  IsSuccess key (<[k := v]> r) = IsSuccess key r ∧
  Error key (<[k := v]> r) = Error key r ∧
  IsSuccess key (delete k r) = IsSuccess key r ∧
  Error key (delete k r) = Error key r.
Proof.
  intros Hkey Herr. unfold IsSuccess, Error, String.
  by rewrite !lookup_insert_ne, !lookup_delete_ne by done.
Qed.

(** X5.  A status that is nil, a boolean or an integer is neither a
    success nor a formatted failure. *)
Theorem non_text_status_neither r v :
  r !! key = Some v →
  v = VNil ∨ (∃ b, v = VBool b) ∨ (∃ n, v = VInt n) →
  IsSuccess key r = false ∧ Error key r = "".
Proof.
  intros Hv Hkind.
  assert (Sprintf_v v ≠ "OK" ∧ Sprintf_v v ≠ "FAIL") as [Hok Hfail].
  { destruct Hkind as [->|[[[] ->]|[n ->]]]; simpl; try done.
    apply pretty_Z_not_sentinel. }
  split.
  - apply not_true_is_false. rewrite IsSuccess_iff.
    by rewrite (String_lookup _ _ _ Hv).
  - apply Error_ne_fail. by rewrite (String_lookup _ _ _ Hv).
Qed.
End EnvelopeMore.

(** ** Rule induction over the steps of the service *)

Section Steps.
Context {σ : Type} `{!ServerIface σ} {TopicListener : Type}.
Variable NewId : nat → string.
Implicit Types (w : World σ TopicListener).

Lemma resume_step w w' :
  resume w = Ok ((), w') →
  (active (rcs w) = true ∧ w' = w) ∨ (active (rcs w) = false ∧ w' = resumed w).
Proof.
  destruct (active (rcs w)) eqn:Ha.
  - rewrite resume_active by done. intros [= <-]. by left.
  - rewrite resume_inactive by done. intros [= <-]. by right.
Qed.

Lemma pause_step w w' :
  pause w = Ok ((), w') →
  (active (rcs w) = false ∧ w' = w) ∨
  ∃ a, active (rcs w) = true ∧ done (rcs w) = Some a ∧
       chans w !! a = Some Open ∧ w' = paused a w.
Proof.
  intros Hrun. destruct (active (rcs w)) eqn:Ha.
  - right. destruct (done (rcs w)) as [a|] eqn:Hd.
    + destruct (chans w !! a) as [[]|] eqn:Hc.
      * rewrite (pause_active w a) in Hrun by done.
        injection Hrun as <-. by exists a.
      * destruct w as [s [b h t d] ch dp n st]; simpl in *; subst.
        cbv [pause close bind gets modify panic] in Hrun; simpl in Hrun.
        by rewrite Hc in Hrun.
      * destruct w as [s [b h t d] ch dp n st]; simpl in *; subst.
        cbv [pause close bind gets modify panic] in Hrun; simpl in Hrun.
        by rewrite Hc in Hrun.
    + destruct w as [s [b h t d] ch dp n st]; simpl in *; subst. done.
  - rewrite pause_inactive in Hrun by done. injection Hrun as <-. by left.
Qed.

Section Rule.
Variable P : World σ TopicListener → Prop.
Hypothesis P_resumed : ∀ w, P w → active (rcs w) = false → P (resumed w).
Hypothesis P_paused : ∀ w a,
  P w → active (rcs w) = true → done (rcs w) = Some a →
  chans w !! a = Some Open → P (paused a w).
Hypothesis P_registered : ∀ w, P w → P (registered w).
Hypothesis P_unregistered : ∀ w, P w → P (unregistered w).
Hypothesis P_added : ∀ w topic l, P w → P (added NewId topic l w).
Hypothesis P_removed : ∀ w order i,
  P w →
  P (with_rcs (set_topicListeners
                 (RemoveTopicListener_range order i (topicListeners (rcs w))))
              w).

Lemma resume_preserves w w' : P w → resume w = Ok ((), w') → P w'.
Proof. intros HP [[_ ->]|[Ha ->]]%resume_step; auto. Qed.

Lemma pause_preserves w w' : P w → pause w = Ok ((), w') → P w'.
Proof.
  intros HP [[_ ->]|(a & Ha & Hd & Hc & ->)]%pause_step; eauto.
Qed.

Lemma onClusterLeaderChange_preserves w w' :
  P w → onClusterLeaderChange w = Ok ((), w') → P w'.
Proof.
  rewrite onClusterLeaderChange_eq. destruct (IsLeader (server w));
    eauto using resume_preserves, pause_preserves.
Qed.

Lemma Start_preserves w w' r : P w → Start w = Ok (r, w') → P w'.
Proof.
  intros HP. rewrite Start_eq.
  destruct (onClusterLeaderChange (registered w)) as [[[] w'']|] eqn:Hrun;
    [|done].
  intros [= _ <-]. apply (onClusterLeaderChange_preserves (registered w)); auto.
Qed.

Lemma Shutdown_preserves w w' r : P w → Shutdown w = Ok (r, w') → P w'.
Proof.
  intros HP. rewrite Shutdown_eq.
  destruct (pause (unregistered w)) as [[[] w'']|] eqn:Hrun; [|done].
  intros [= _ <-]. apply (pause_preserves (unregistered w)); auto.
Qed.

(** A property kept by the six atomic steps is kept by every call. *)
Lemma exec_preserves c w w' : P w → exec NewId c w = Ok ((), w') → P w'.
Proof.
  intros HP. destruct c as [| | | | |topic l|order i]; simpl;
    unfold bind, ret.
  - destruct (Start w) as [[r w'']|] eqn:Hrun; [|done].
    intros [= <-]. by eapply Start_preserves.
  - destruct (Shutdown w) as [[r w'']|] eqn:Hrun; [|done].
    intros [= <-]. by eapply Shutdown_preserves.
  - by apply resume_preserves.
  - by apply pause_preserves.
  - by apply onClusterLeaderChange_preserves.
  - rewrite AddTopicListener_eq. intros [= <-]. by apply P_added.
  - rewrite RemoveTopicListener_eq. intros [= <-]. by apply P_removed.
Qed.

Hypothesis P_new : ∀ s b, P (new_world s b).
Hypothesis P_server : ∀ f w, P w → P (with_server f w).
Hypothesis P_disablePing : ∀ b w, P w → P (with_disablePing b w).

(** If it also holds at construction and survives the moves of the
    collaborators, it holds in every reachable world. *)
Lemma reachable_preserves w : reachable NewId w → P w.
Proof.
  induction 1 as [s b|c w w' _ IH Hexec|f w _ IH|b w _ IH]; auto.
  by apply (exec_preserves c w w').
Qed.
End Rule.
End Steps.

(** ** Lifecycle: generations of pipelines *)

Section Generations.
Context {σ : Type} `{!ServerIface σ} {TopicListener : Type}.
Variable NewId : nat → string.
Implicit Types (w : World σ TopicListener).

Lemma lifecycle_sound_frame w w' :
  same_lifecycle w w' → lifecycle_sound w → lifecycle_sound w'.
Proof.
  unfold same_lifecycle, lifecycle_sound, lifecycle_inv, no_stray_open,
    pipelines_on_made_chans, one_generation_per_chan, pings.
  by intros (-> & -> & -> & ->).
Qed.

Lemma filter_is_send_resumed w :
  filter is_send (started (resumed w))
  = filter is_send (started w) ++ [SendLoop (Some (length (chans w)))].
Proof.
  unfold resumed; simpl.
  destruct (disablePing w); rewrite !filter_app; simpl; by rewrite ?app_nil_r.
Qed.

Lemma lifecycle_sound_resumed w :
  lifecycle_sound w → active (rcs w) = false → lifecycle_sound (resumed w).
Proof.
  intros (Hinv & Hstray & Hmade & Hsends & Hpings) Ha.
  split; [apply lifecycle_inv_resumed|]. split; [|split; [|split]].
  - intros a. unfold resumed; simpl. intros Hopen.
    destruct (decide (a < length (chans w))%nat) as [Hlt|Hge].
    + rewrite lookup_app_l in Hopen by done.
      apply Hstray in Hopen. unfold lifecycle_inv in Hinv.
      rewrite Hopen in Hinv. destruct Hinv; congruence.
    + apply lookup_lt_Some in Hopen. rewrite length_app in Hopen.
      simpl in Hopen. f_equal. lia.
  - intros p Hp.
    assert (p ∈ started w ∨ watched p = Some (length (chans w))) as [Hold|Hnew].
    { unfold resumed in Hp; simpl in Hp. destruct (disablePing w).
      - apply elem_of_app in Hp as [?|Hp%list_elem_of_singleton];
          [auto|subst; auto].
      - apply elem_of_app in Hp as [Hp|Hp%list_elem_of_singleton];
          [|subst; auto].
        apply elem_of_app in Hp as [?|Hp%list_elem_of_singleton];
          [auto|subst; auto]. }
    + destruct (Hmade p Hold) as (a & ? & ?). exists a. split; [done|].
      unfold resumed; simpl. rewrite length_app; simpl; lia.
    + eexists. split; [done|].
      unfold resumed; simpl. rewrite length_app; simpl; lia.
  - rewrite filter_is_send_resumed, Hsends. unfold resumed; simpl.
    rewrite length_app; simpl. rewrite Nat.add_1_r, seq_S, fmap_app. done.
  - rewrite pings_resumed. unfold resumed; simpl.
    rewrite length_app; simpl. destruct (disablePing w); lia.
Qed.

Lemma lifecycle_sound_paused w a :
  lifecycle_sound w → active (rcs w) = true → done (rcs w) = Some a →
  chans w !! a = Some Open → lifecycle_sound (paused a w).
Proof.
  intros (Hinv & Hstray & Hmade & Hsends & Hpings) Ha Hd Hopen.
  split; [done|]. split; [|split; [|split]].
  - intros b. unfold paused; simpl. intros Hb.
    destruct (decide (a = b)) as [<-|Hne].
    + rewrite list_lookup_insert_eq in Hb by (by eapply lookup_lt_Some).
      discriminate.
    + rewrite list_lookup_insert_ne in Hb by done.
      apply Hstray in Hb. congruence.
  - intros p Hp. unfold paused in *; simpl in *. rewrite length_insert. auto.
  - unfold paused; simpl. by rewrite length_insert.
  - unfold pings, paused; simpl. by rewrite length_insert.
Qed.

Lemma same_lifecycle_registered w : same_lifecycle w (registered w).
Proof.
  unfold registered. by destruct (AddClusterLeaderChangedListener (server w)).
Qed.

Lemma reachable_lifecycle_sound w : reachable NewId w → lifecycle_sound w.
Proof.
  apply reachable_preserves.
  - apply lifecycle_sound_resumed.
  - apply lifecycle_sound_paused.
  - intros w0. apply lifecycle_sound_frame, same_lifecycle_registered.
  - intros w0. by apply lifecycle_sound_frame.
  - intros w0 topic l. by apply lifecycle_sound_frame.
  - intros w0 order i. by apply lifecycle_sound_frame.
  - intros s b. repeat split; try done.
    intros p Hp. simpl in Hp. by apply elem_of_nil in Hp.
  - intros f w0. by apply lifecycle_sound_frame.
  - intros b w0. by apply lifecycle_sound_frame.
Qed.
End Generations.

Section LifecycleMore.
Context {σ : Type} `{!ServerIface σ} {TopicListener : Type}.
Variable NewId : nat → string.
Implicit Types (w : World σ TopicListener).

(** X6.  In every reachable world the only channel that can be open is
    the one in [done], and then the service is active; while the service
    is inactive every channel it ever made is closed. *)
Theorem only_done_is_open w :
  reachable NewId w →
  (∀ a, chans w !! a = Some Open →
        done (rcs w) = Some a ∧ active (rcs w) = true) ∧
  (active (rcs w) = false → Forall (λ c, c = Closed) (chans w)).
Proof.
  intros (Hinv & Hstray & _)%reachable_lifecycle_sound.
  assert (∀ a, chans w !! a = Some Open →
               done (rcs w) = Some a ∧ active (rcs w) = true) as Hopen.
  { intros a Ha. pose proof (Hstray a Ha) as Hd. split; [done|].
    unfold lifecycle_inv in Hinv. rewrite Hd in Hinv. by destruct Hinv. }
  split; [done|].
  intros Hoff. apply Forall_lookup. intros a [] Ha; [|done].
  destruct (Hopen a Ha). congruence.
Qed.

(** X7.  In every reachable world each pipeline ever started watches a
    channel that is closed, unless it watches the channel in [done] of an
    active service: no pipeline of an earlier generation is left with an
    open signal. *)
Theorem pipelines_stopped_or_current w :
  reachable NewId w →
  ∀ p, p ∈ started w →
    ∃ a, watched p = Some a ∧
         (chans w !! a = Some Closed ∨
          (chans w !! a = Some Open ∧ done (rcs w) = Some a ∧
           active (rcs w) = true)).
Proof.
  intros (Hinv & Hstray & Hmade & _)%reachable_lifecycle_sound p Hp.
  destruct (Hmade p Hp) as (a & Hw & Hlt). exists a. split; [done|].
  destruct (lookup_lt_is_Some_2 _ _ Hlt) as [[] Ha]; [|by left].
  right. pose proof (Hstray a Ha) as Hd. split; [done|]. split; [done|].
  unfold lifecycle_inv in Hinv. rewrite Hd in Hinv. by destruct Hinv.
Qed.

(** X8.  In every reachable world the send pipelines, in the order they
    were started, watch the channels in the order they were made, one
    pipeline per channel; so as many send pipelines were started as
    channels made, and never more ping pipelines than that. *)
Theorem one_send_pipeline_per_generation w :
  reachable NewId w →
  filter is_send (started w)
  = (λ a, SendLoop (Some a)) <$> seq 0 (length (chans w)) ∧
  sends w = length (chans w) ∧ (pings w ≤ sends w)%nat.
Proof.
  intros (_ & _ & _ & Hsends & Hpings)%reachable_lifecycle_sound.
  assert (sends w = length (chans w)) as Hcount.
  { unfold sends. by rewrite Hsends, length_fmap, length_seq. }
  split; [done|]. split; [done|]. by rewrite Hcount.
Qed.

(** X9.  Losing and regaining leadership: from an active reachable
    service [pause] then [resume] both return, the old signal is closed
    and stays in the heap, and [done] is a different, open channel with
    one more send pipeline started on it. *)
Theorem leadership_flip_fresh_signal w :
  reachable NewId w → active (rcs w) = true →
  ∃ a a' w1 w2,
    done (rcs w) = Some a ∧ pause w = Ok ((), w1) ∧
    resume w1 = Ok ((), w2) ∧ done (rcs w2) = Some a' ∧ a ≠ a' ∧
    chans w2 !! a = Some Closed ∧ chans w2 !! a' = Some Open ∧
    sends w2 = S (sends w) ∧
    SendLoop (Some a') ∈ started w2.
Proof.
  intros Hinv%reachable_inv Ha. unfold lifecycle_inv in Hinv.
  destruct (done (rcs w)) as [a|] eqn:Hd; [|congruence].
  destruct Hinv as (_ & Hlen & Hopen).
  exists a, (length (chans w)), (paused a w), (resumed (paused a w)).
  split; [done|]. split; [by apply pause_active|].
  split; [by apply resume_inactive|].
  assert (length (chans (paused a w)) = length (chans w)) as Hlen'
    by (unfold paused; simpl; apply length_insert).
  split; [unfold resumed; simpl; by rewrite length_insert|].
  split; [lia|]. split; [|split; [|split]].
  - unfold resumed, paused; simpl.
    rewrite lookup_app_l by (rewrite length_insert; lia).
    apply list_lookup_insert_eq. lia.
  - unfold resumed, paused; simpl.
    by rewrite lookup_app_r, length_insert, Nat.sub_diag
      by (rewrite length_insert; lia).
  - by rewrite sends_resumed.
  - unfold resumed; simpl. rewrite length_insert.
    apply elem_of_app. right. by apply list_elem_of_singleton.
Qed.


(** X11.  In every reachable world [Start] returns a nil error, stores
    the handle the server gave for the listener, and leaves the service
    active exactly when the server, asked after the registration, says
    this node is the leader. *)
Theorem Start_follows_leadership w :
  reachable NewId w →
  ∃ w', Start w = Ok (None, w') ∧
        leaderListenerId (rcs w')
        = (AddClusterLeaderChangedListener (server w)).1 ∧
        active (rcs w')
        = IsLeader (AddClusterLeaderChangedListener (server w)).2.
Proof.
  intros Hinv%reachable_inv%lifecycle_inv_registered.
  rewrite Start_eq, onClusterLeaderChange_eq.
  assert (server (registered w)
          = (AddClusterLeaderChangedListener (server w)).2 ∧
          leaderListenerId (rcs (registered w))
          = (AddClusterLeaderChangedListener (server w)).1) as [Hs Hh].
  { unfold registered.
    by destruct (AddClusterLeaderChangedListener (server w)). }
  rewrite <-Hs, <-Hh. destruct (IsLeader (server (registered w))).
  - destruct (resume_ok _ Hinv) as (w' & Hrun & _ & Hon).
    exists w'. rewrite Hrun. split; [done|]. split; [|done].
    by apply resume_step in Hrun as [[_ ->]|[_ ->]].
  - destruct (pause_ok _ Hinv) as (w' & Hrun & _ & Hoff).
    exists w'. rewrite Hrun. split; [done|]. split; [|done].
    by apply pause_step in Hrun as [[_ ->]|(a & _ & _ & _ & ->)].
Qed.

(** X12.  In every reachable world [onClusterLeaderChange] returns and
    leaves the service active exactly when the server says this node is
    the leader; when that was so already, nothing changes at all. *)
Theorem onClusterLeaderChange_follows_leadership w :
  reachable NewId w →
  ∃ w', onClusterLeaderChange w = Ok ((), w') ∧
        active (rcs w') = IsLeader (server w) ∧
        (active (rcs w) = IsLeader (server w) → w' = w).
Proof.
  intros Hinv%reachable_inv. rewrite onClusterLeaderChange_eq.
  destruct (IsLeader (server w)).
  - destruct (resume_ok _ Hinv) as (w' & Hrun & _ & Hon).
    exists w'. split; [done|]. split; [done|].
    intros Ha. rewrite resume_active in Hrun by done. congruence.
  - destruct (pause_ok _ Hinv) as (w' & Hrun & _ & Hoff).
    exists w'. split; [done|]. split; [done|].
    intros Ha. rewrite pause_inactive in Hrun by done. congruence.
Qed.

(** X13.  [Start], [Shutdown], [resume], [pause] and
    [onClusterLeaderChange] never touch the topic registry and never draw
    an id: listeners registered before a shutdown are still registered
    after it. *)
Theorem lifecycle_calls_keep_registry c w w' :
  lifecycle_call c = true → exec NewId c w = Ok ((), w') →
  same_registry w w'.
Proof.
  unfold same_registry.
  destruct c as [| | | | |topic l|order i]; simpl; unfold bind, ret;
    intros Hc Hrun; try done.
  - destruct (Start w) as [[r w'']|] eqn:Hs; [|done].
    injection Hrun as <-. by eapply Start_keeps_registry.
  - destruct (Shutdown w) as [[r w'']|] eqn:Hs; [|done].
    injection Hrun as <-. by eapply Shutdown_keeps_registry.
  - by apply resume_keeps_registry.
  - by apply pause_keeps_registry.
  - by apply onClusterLeaderChange_keeps_registry.
Qed.

(** X14.  [AddTopicListener] and [RemoveTopicListener] never touch the
    lifecycle: activity, [done], the channels, the started pipelines, the
    server and the stored handle are as before. *)
Theorem registry_calls_keep_lifecycle c w w' :
  lifecycle_call c = false → exec NewId c w = Ok ((), w') →
  same_lifecycle w w' ∧ server w' = server w ∧
  leaderListenerId (rcs w') = leaderListenerId (rcs w).
Proof.
  destruct c as [| | | | |topic l|order i]; simpl; unfold bind, ret;
    intros Hc Hrun; try done.
  - rewrite AddTopicListener_eq in Hrun. by injection Hrun as <-.
  - rewrite RemoveTopicListener_eq in Hrun. by injection Hrun as <-.
Qed.

(** X15.  [Shutdown] keeps the handle stored, so in every reachable world
    a second [Shutdown] returns as well, asks the server to remove the
    same handle once more and changes nothing else. *)
Theorem Shutdown_twice w :
  reachable NewId w →
  ∃ w1 w2,
    Shutdown w = Ok (None, w1) ∧ Shutdown w1 = Ok (None, w2) ∧
    leaderListenerId (rcs w1) = leaderListenerId (rcs w) ∧
    rcs w2 = rcs w1 ∧ chans w2 = chans w1 ∧ started w2 = started w1 ∧
    server w2
    = RemoveClusterLeaderChangedListener (leaderListenerId (rcs w))
                                         (server w1).
Proof.
  intros Hinv%reachable_inv.
  destruct (Shutdown_ok w Hinv) as (w1 & Hrun & Hinv1 & Hoff).
  exists w1, (unregistered w1). split; [done|].
  assert (leaderListenerId (rcs w1) = leaderListenerId (rcs w)) as Hh.
  { rewrite Shutdown_eq in Hrun.
    destruct (pause (unregistered w)) as [[[] w'']|] eqn:Hp; [|done].
    injection Hrun as <-.
    by apply pause_step in Hp as [[_ ->]|(a & _ & _ & _ & ->)]. }
  split; [|by rewrite <-Hh].
  rewrite Shutdown_eq. by rewrite pause_inactive.
Qed.
End LifecycleMore.

(** ** Topic registry: invariants and removal *)

Section RegistryMore.
Context {σ : Type} `{!ServerIface σ} {TopicListener : Type}.
Variable NewId : nat → string.
Implicit Types (w : World σ TopicListener).
Implicit Types (t : gmap string (bucket TopicListener)).
Implicit Types (m : gmap string (topicListenerEntry TopicListener)).

(** A bucket after the removal loop is the bucket before, or that bucket
    without the id and still not empty. *)
Lemma RemoveTopicListener_range_cases order i t topic e :
  RemoveTopicListener_range order i t !! topic = Some e →
  ∃ e0, t !! topic = Some e0 ∧
        (e = e0 ∨ (e = entries_delete i e0 ∧ entries_len e ≠ 0)).
Proof.
  induction order as [|topic0 order IH]; simpl; [by eauto|].
  destruct (t !! topic0) as [b0|] eqn:Ht0; [|done].
  destruct (entries_lookup b0 i); [|done].
  destruct (entries_len (entries_delete i b0) =? 0)%nat eqn:Hlen.
  - intros [Hne He]%lookup_delete_Some.
    rewrite lookup_insert_ne in He by done. eauto.
  - apply Nat.eqb_neq in Hlen.
    destruct (decide (topic0 = topic)) as [->|Hne].
    + rewrite lookup_insert_eq. intros [= <-]. eauto.
    + rewrite lookup_insert_ne by done. eauto.
Qed.

(** An entry under another id than the one removed is still there. *)
Lemma RemoveTopicListener_range_keeps order i t topic e0 k x :
  t !! topic = Some e0 → entries_lookup e0 k = Some x → k ≠ i →
  ∃ e, RemoveTopicListener_range order i t !! topic = Some e ∧
       entries_lookup e k = Some x.
Proof.
  intros Ht Hk Hne.
  induction order as [|topic0 order IH]; simpl; [by eauto|].
  destruct (t !! topic0) as [b0|] eqn:Ht0; [|done].
  destruct (entries_lookup b0 i); [|done].
  destruct (decide (topic0 = topic)) as [->|Hne0].
  - assert (b0 = e0) as -> by congruence.
    assert (entries_lookup (entries_delete i e0) k = Some x) as Hk'.
    { destruct e0 as [m0|]; simpl in *; [|done].
      by rewrite lookup_delete_ne. }
    assert (entries_len (entries_delete i e0) ≠ 0) as Hlen.
    { destruct e0 as [m0|]; simpl in *; [|done].
      intros Hz%map_size_empty_inv. by rewrite Hz, lookup_empty in Hk'. }
    apply Nat.eqb_neq in Hlen. rewrite Hlen.
    rewrite lookup_insert_eq. eauto.
  - exists e0. split; [|done].
    destruct (entries_len _ =? 0)%nat.
    + by rewrite lookup_delete_ne, lookup_insert_ne.
    + by rewrite lookup_insert_ne.
Qed.

Lemma registry_sound_frame w w' :
  topicListeners (rcs w') = topicListeners (rcs w) →
  buckets_pruned w ∧ keyed_by_id w → buckets_pruned w' ∧ keyed_by_id w'.
Proof. unfold buckets_pruned, keyed_by_id. by intros ->. Qed.

Lemma registry_sound_added topic l w :
  buckets_pruned w ∧ keyed_by_id w →
  buckets_pruned (added NewId topic l w) ∧
  keyed_by_id (added NewId topic l w).
Proof.
  intros [Hpr Hkey]. split.
  - intros topic' e. unfold added; simpl.
    destruct (decide (topic = topic')) as [<-|Hne].
    + rewrite lookup_insert_eq. intros [= <-]. eexists. split; [done|].
      apply insert_non_empty.
    + rewrite lookup_insert_ne by done. apply Hpr.
  - intros topic' e k x. unfold added; simpl.
    destruct (decide (topic = topic')) as [<-|Hne].
    + rewrite lookup_insert_eq. intros [= <-]; simpl.
      destruct (decide (NewId (newIds w) = k)) as [<-|Hk].
      * rewrite lookup_insert_eq. by intros [= <-].
      * rewrite lookup_insert_ne by done. unfold bucket_of.
        destruct (topicListeners (rcs w) !! topic) as [[m|]|] eqn:Ht;
          [|by rewrite lookup_empty..].
        apply (Hkey topic (Some m) k x Ht).
    + rewrite lookup_insert_ne by done. apply Hkey.
Qed.

Lemma registry_sound_removed order i w :
  buckets_pruned w ∧ keyed_by_id w →
  buckets_pruned
    (with_rcs (set_topicListeners
                 (RemoveTopicListener_range order i (topicListeners (rcs w))))
              w) ∧
  keyed_by_id
    (with_rcs (set_topicListeners
                 (RemoveTopicListener_range order i (topicListeners (rcs w))))
              w).
Proof.
  intros [Hpr Hkey]. split.
  - intros topic e; simpl.
    intros (e0 & Ht & Hcase)%RemoveTopicListener_range_cases.
    destruct (Hpr topic e0 Ht) as (m0 & -> & Hm0).
    destruct Hcase as [->|[-> Hlen]]; [eauto|]. simpl in *.
    eexists. split; [done|]. intros Hempty.
    by rewrite Hempty, map_size_empty in Hlen.
  - intros topic e k x; simpl.
    intros (e0 & Ht & Hcase)%RemoveTopicListener_range_cases Hk.
    destruct Hcase as [->|[-> _]]; [by apply (Hkey topic e0)|].
    destruct e0 as [m0|]; simpl in *; [|done].
    apply lookup_delete_Some in Hk as [_ Hk]. by apply (Hkey topic (Some m0)).
Qed.

Lemma reachable_registry_sound w :
  reachable NewId w → buckets_pruned w ∧ keyed_by_id w.
Proof.
  revert w.
  apply (reachable_preserves NewId (λ w, buckets_pruned w ∧ keyed_by_id w)).
  - intros w0 HP _. by apply (registry_sound_frame w0).
  - intros w0 a HP _ _ _. by apply (registry_sound_frame w0).
  - intros w0. apply registry_sound_frame. unfold registered.
    by destruct (AddClusterLeaderChangedListener (server w0)).
  - intros w0. by apply registry_sound_frame.
  - intros w0 topic l. apply registry_sound_added.
  - intros w0 order i. apply registry_sound_removed.
  - intros s b. split.
    + intros topic e. simpl. by rewrite lookup_empty.
    + intros topic e k x. simpl. by rewrite lookup_empty.
  - intros f w0. by apply registry_sound_frame.
  - intros b w0. by apply registry_sound_frame.
Qed.

(** X16.  In every reachable world the registry has no nil and no empty
    bucket, and every entry sits under the key that is its own id. *)
Theorem registry_buckets_pruned w :
  reachable NewId w →
  ∀ topic e, topicListeners (rcs w) !! topic = Some e →
    ∃ m, e = Some m ∧ m ≠ ∅ ∧ ∀ k x, m !! k = Some x → id x = k.
Proof.
  intros [Hpr Hkey]%reachable_registry_sound topic e He.
  destruct (Hpr topic e He) as (m & -> & Hm). exists m.
  split; [done|]. split; [done|].
  intros k x Hk. by apply (Hkey topic (Some m) k x).
Qed.

Lemma ids_unique_frame w w' :
  topicListeners (rcs w') = topicListeners (rcs w) ∧ newIds w' = newIds w →
  ids_issued NewId w ∧ ids_unique w → ids_issued NewId w' ∧ ids_unique w'.
Proof. unfold ids_issued, ids_unique. by intros [-> ->]. Qed.

Lemma ids_unique_added topic l w :
  Inj (=) (=) NewId →
  ids_issued NewId w ∧ ids_unique w →
  ids_issued NewId (added NewId topic l w) ∧
  ids_unique (added NewId topic l w).
Proof.
  intros Hinj [Hiss Huniq]. split; [by apply ids_issued_added|].
  assert (∀ topic' e j,
            topicListeners (rcs (added NewId topic l w)) !! topic' = Some e →
            is_Some (entries_lookup e j) →
            (j = NewId (newIds w) ∧ topic' = topic) ∨
            (j ≠ NewId (newIds w) ∧
             ∃ e0, topicListeners (rcs w) !! topic' = Some e0 ∧
                   is_Some (entries_lookup e0 j))) as Hold.
  { intros topic' e j. unfold added; simpl.
    destruct (decide (topic = topic')) as [<-|Hne].
    - rewrite lookup_insert_eq. intros [= <-]; simpl.
      destruct (decide (NewId (newIds w) = j)) as [<-|Hj]; [by left|].
      rewrite lookup_insert_ne by done. unfold bucket_of.
      destruct (topicListeners (rcs w) !! topic) as [[m|]|] eqn:Ht;
        [|rewrite lookup_empty; by intros [? ?]..].
      intros Hm. right. split; [done|]. exists (Some m). by split.
    - rewrite lookup_insert_ne by done. intros He Hj. right.
      split; [|by eauto].
      intros ->. destruct (Hiss topic' e _ He Hj) as (k & Hlt & Heq).
      apply Hinj in Heq. lia. }
  intros topic1 topic2 e1 e2 j He1 He2 Hj1 Hj2.
  destruct (Hold _ _ _ He1 Hj1) as [[-> ->]|[Hne1 (b1 & Hb1 & Hjb1)]];
    destruct (Hold _ _ _ He2 Hj2) as [[? ->]|[Hne2 (b2 & Hb2 & Hjb2)]];
    try done.
  by apply (Huniq topic1 topic2 b1 b2 j).
Qed.

Lemma ids_unique_removed order i w :
  ids_issued NewId w ∧ ids_unique w →
  ids_issued NewId
    (with_rcs (set_topicListeners
                 (RemoveTopicListener_range order i (topicListeners (rcs w))))
              w) ∧
  ids_unique
    (with_rcs (set_topicListeners
                 (RemoveTopicListener_range order i (topicListeners (rcs w))))
              w).
Proof.
  intros [Hiss Huniq]. split; [by apply ids_issued_removed|].
  intros topic1 topic2 e1 e2 j; simpl. intros He1 He2 Hj1 Hj2.
  destruct (RemoveTopicListener_range_sub _ _ _ _ _ _ He1 Hj1)
    as (b1 & ? & ?).
  destruct (RemoveTopicListener_range_sub _ _ _ _ _ _ He2 Hj2)
    as (b2 & ? & ?).
  by apply (Huniq topic1 topic2 b1 b2 j).
Qed.

Lemma reachable_ids_unique w :
  Inj (=) (=) NewId → reachable NewId w → ids_unique w.
Proof.
  intros Hinj Hreach.
  cut (ids_issued NewId w ∧ ids_unique w); [by intros [_ ?]|].
  revert w Hreach.
  apply (reachable_preserves NewId (λ w, ids_issued NewId w ∧ ids_unique w)).
  - intros w0 HP _. by apply (ids_unique_frame w0).
  - intros w0 a HP _ _ _. by apply (ids_unique_frame w0).
  - intros w0. apply ids_unique_frame. unfold registered.
    by destruct (AddClusterLeaderChangedListener (server w0)).
  - intros w0. by apply ids_unique_frame.
  - intros w0 topic l. by apply ids_unique_added.
  - intros w0 order i. apply ids_unique_removed.
  - intros s b. split.
    + intros topic e j. simpl. by rewrite lookup_empty.
    + intros topic1 topic2 e1 e2 j. simpl. by rewrite lookup_empty.
  - intros f w0. by apply ids_unique_frame.
  - intros b w0. by apply ids_unique_frame.
Qed.

(** X17.  When [model.NewId] never returns the same id twice, then in
    every reachable world a listener id is held by the bucket of at most
    one topic. *)
Theorem listener_id_in_one_bucket w topic1 topic2 e1 e2 i :
  Inj (=) (=) NewId → reachable NewId w →
  topicListeners (rcs w) !! topic1 = Some e1 →
  topicListeners (rcs w) !! topic2 = Some e2 →
  is_Some (entries_lookup e1 i) → is_Some (entries_lookup e2 i) →
  topic1 = topic2.
Proof.
  intros Hinj Hreach. by apply (reachable_ids_unique w Hinj Hreach).
Qed.
End RegistryMore.

(** ** Topic registry: what removal and lookup do *)

Section RegistryOps.
Context {σ : Type} `{!ServerIface σ} {TopicListener : Type}.
Variable NewId : nat → string.
Implicit Types (w : World σ TopicListener).
Implicit Types (t : gmap string (bucket TopicListener)).
Implicit Types (m : gmap string (topicListenerEntry TopicListener)).

Lemma bucket_of_is_Some topic w i :
  is_Some (bucket_of topic w !! i) →
  topicListeners (rcs w) !! topic = Some (Some (bucket_of topic w)).
Proof.
  unfold bucket_of.
  destruct (topicListeners (rcs w) !! topic) as [[m|]|]; [done|..];
    rewrite lookup_empty; by intros [? ?].
Qed.

(** The registry after removing an id that one bucket only holds. *)
Lemma remove_held_spec w topic i order :
  held_only_by i topic w → range_order (topicListeners (rcs w)) order →
  ∃ w', RemoveTopicListener order i w = Ok ((), w') ∧
        unknown_id i (topicListeners (rcs w')) ∧
        bucket_of topic w' = delete i (bucket_of topic w) ∧
        (topicListeners (rcs w') !! topic = None
         ↔ delete i (bucket_of topic w) = ∅) ∧
        (∀ topic', topic' ≠ topic →
           topicListeners (rcs w') !! topic'
           = topicListeners (rcs w) !! topic').
Proof.
  intros [Hheld Hothers] Horder.
  pose proof (bucket_of_is_Some topic w i Hheld) as Ht.
  eexists. split; [apply RemoveTopicListener_eq|]. simpl.
  rewrite (RemoveTopicListener_range_found order i _ topic
             (bucket_of topic w)
             (range_order_elem _ _ _ Horder (mk_is_Some _ _ Ht)) Ht Hheld
             Hothers).
  unfold bucket_of at 3; simpl.
  destruct (size (delete i (bucket_of topic w)) =? 0)%nat eqn:Hsize.
  - apply Nat.eqb_eq, map_size_empty_inv in Hsize. rewrite Hsize.
    split; [|split; [|split]].
    + intros topic' e [Hne He]%lookup_delete_Some. by apply (Hothers topic').
    + by rewrite lookup_delete_eq.
    + by rewrite lookup_delete_eq.
    + intros topic' Hne. by rewrite lookup_delete_ne.
  - apply Nat.eqb_neq in Hsize. split; [|split; [|split]].
    + intros topic' e. destruct (decide (topic = topic')) as [<-|Hne].
      * rewrite lookup_insert_eq. intros [= <-]. apply lookup_delete_eq.
      * rewrite lookup_insert_ne by done. by apply Hothers.
    + by rewrite lookup_insert_eq.
    + rewrite lookup_insert_eq. split; [done|].
      intros Hempty. by rewrite Hempty, map_size_empty in Hsize.
    + intros topic' Hne. by rewrite lookup_insert_ne.
Qed.

(** With ids held by one bucket each, an id is unknown or held by one
    bucket only. *)
Lemma unknown_or_held i w :
  ids_unique w →
  unknown_id i (topicListeners (rcs w)) ∨ ∃ topic, held_only_by i topic w.
Proof.
  intros Huniq.
  destruct (decide (unknown_id i (topicListeners (rcs w)))) as [|Hknown];
    [by left|right].
  apply map_not_Forall in Hknown as (topic & e & He & Hi); [|apply _].
  assert (is_Some (entries_lookup e i)) as Hsome.
  { destruct (entries_lookup e i) eqn:Hl; [by eexists|done]. }
  exists topic. split.
  - unfold bucket_of. rewrite He.
    destruct e as [m|]; [done|]. by destruct Hsome.
  - intros topic' e' Hne He'.
    destruct (entries_lookup e' i) eqn:Hl; [|done].
    destruct Hne. by apply (Huniq topic' topic e' e i).
Qed.

(** X18.  When one bucket holds the id and no other does,
    [RemoveTopicListener] returns, in whatever order it walks the topics,
    with the id gone from the whole registry, that bucket without the
    entry (and deleted exactly when nothing is left in it), and every
    other topic as it was. *)
Theorem remove_known_id w topic i order :
  held_only_by i topic w → range_order (topicListeners (rcs w)) order →
  ∃ w', RemoveTopicListener order i w = Ok ((), w') ∧
        unknown_id i (topicListeners (rcs w')) ∧
        bucket_of topic w' = delete i (bucket_of topic w) ∧
        (topicListeners (rcs w') !! topic = None
         ↔ delete i (bucket_of topic w) = ∅) ∧
        (∀ topic', topic' ≠ topic →
           topicListeners (rcs w') !! topic'
           = topicListeners (rcs w) !! topic').
Proof. apply remove_held_spec. Qed.

(** X19.  When [model.NewId] never repeats an id, the outcome of
    [RemoveTopicListener] in a reachable world does not depend on the
    order in which [range] walks the registry. *)
Theorem remove_order_irrelevant w i order1 order2 :
  Inj (=) (=) NewId → reachable NewId w →
  range_order (topicListeners (rcs w)) order1 →
  range_order (topicListeners (rcs w)) order2 →
  RemoveTopicListener order1 i w = RemoveTopicListener order2 i w.
Proof.
  intros Hinj Hreach Ho1 Ho2.
  destruct (unknown_or_held i w (reachable_ids_unique NewId w Hinj Hreach))
    as [Hun|[topic [Hheld Hothers]]].
  - rewrite !RemoveTopicListener_eq.
    by rewrite !RemoveTopicListener_range_unknown.
  - pose proof (bucket_of_is_Some topic w i Hheld) as Ht.
    rewrite !RemoveTopicListener_eq.
    rewrite (RemoveTopicListener_range_found order1 i _ topic _
               (range_order_elem _ _ _ Ho1 (mk_is_Some _ _ Ht)) Ht Hheld
               Hothers).
    by rewrite (RemoveTopicListener_range_found order2 i _ topic _
                  (range_order_elem _ _ _ Ho2 (mk_is_Some _ _ Ht)) Ht Hheld
                  Hothers).
Qed.

(** X20.  When [model.NewId] never repeats an id, removing a listener in
    a reachable world leaves its id unknown to the registry, so removing
    it again, in any order, changes nothing. *)
Theorem remove_twice_is_remove_once w i order :
  Inj (=) (=) NewId → reachable NewId w →
  range_order (topicListeners (rcs w)) order →
  ∃ w', RemoveTopicListener order i w = Ok ((), w') ∧
        unknown_id i (topicListeners (rcs w')) ∧
        ∀ order', RemoveTopicListener order' i w' = Ok ((), w').
Proof.
  intros Hinj Hreach Horder.
  assert (∃ w', RemoveTopicListener order i w = Ok ((), w') ∧
                unknown_id i (topicListeners (rcs w'))) as (w' & Hrun & Hun).
  { destruct (unknown_or_held i w (reachable_ids_unique NewId w Hinj Hreach))
      as [Hun|[topic Hheld]].
    - exists w. split; [|done]. rewrite RemoveTopicListener_eq.
      by rewrite RemoveTopicListener_range_unknown, with_rcs_same_registry.
    - destruct (remove_held_spec w topic i order Hheld Horder)
        as (w' & ? & ? & _). eauto. }
  exists w'. split; [done|]. split; [done|].
  intros order'. rewrite RemoveTopicListener_eq.
  by rewrite RemoveTopicListener_range_unknown, with_rcs_same_registry.
Qed.

(** X21.  From any world and in any order [RemoveTopicListener] returns,
    adds no entry and alters none, and keeps every entry whose id is not
    the one removed. *)
Theorem remove_touches_only_that_id order i w :
  ∃ w', RemoveTopicListener order i w = Ok ((), w') ∧
    (∀ topic e k x,
       topicListeners (rcs w') !! topic = Some e →
       entries_lookup e k = Some x →
       ∃ e0, topicListeners (rcs w) !! topic = Some e0 ∧
             entries_lookup e0 k = Some x) ∧
    (∀ topic e0 k x,
       topicListeners (rcs w) !! topic = Some e0 →
       entries_lookup e0 k = Some x → k ≠ i →
       ∃ e, topicListeners (rcs w') !! topic = Some e ∧
            entries_lookup e k = Some x).
Proof.
  eexists. split; [apply RemoveTopicListener_eq|]. simpl. split.
  - intros topic e k x (e0 & Ht & Hcase)%RemoveTopicListener_range_cases Hk.
    exists e0. split; [done|].
    destruct Hcase as [->|[-> _]]; [done|].
    destruct e0 as [m0|]; simpl in *; [|done].
    by apply lookup_delete_Some in Hk as [_ Hk].
  - intros topic e0 k x Ht Hk Hne.
    by apply RemoveTopicListener_range_keeps with e0.
Qed.

Lemma listener_in_bucket topic w i x :
  bucket_of topic w !! i = Some x →
  listener x ∈ listener <$> (map_to_list (bucket_of topic w)).*2.
Proof.
  intros Hx. apply list_elem_of_fmap_2.
  apply list_elem_of_fmap. exists (i, x). split; [done|].
  by apply elem_of_map_to_list.
Qed.

(** X22.  From any world [AddTopicListener] returns an id, and
    [getTopicListeners] for that topic then returns a list with the
    listener in it, in whatever order it walks the bucket. *)
Theorem add_then_get_contains topic l w :
  ∃ i w1,
    AddTopicListener NewId topic l w = Ok (i, w1) ∧
    ∀ order, range_order (bucket_of topic w1) order →
      ∃ res, getTopicListeners order topic w1 = Ok (res, w1) ∧ l ∈ res.
Proof.
  eexists _, _. split; [apply AddTopicListener_eq|].
  intros order Horder.
  destruct (getTopicListeners_eq order topic _ Horder) as (res & Hget & Hres).
  exists res. split; [done|]. rewrite Hres.
  apply (listener_in_bucket topic _ (NewId (newIds w))
           {| id := NewId (newIds w); listener := l |}).
  rewrite bucket_of_added. apply lookup_insert_eq.
Qed.

(** X23.  When the id drawn is not yet in the topic's bucket, the
    listeners [getTopicListeners] returns after [AddTopicListener] are
    those it returned before and the new one, each once. *)
Theorem add_then_get_one_more topic l w :
  bucket_of topic w !! NewId (newIds w) = None →
  ∃ i w1,
    AddTopicListener NewId topic l w = Ok (i, w1) ∧
    ∀ order0 order1,
      range_order (bucket_of topic w) order0 →
      range_order (bucket_of topic w1) order1 →
      ∃ res0 res1,
        getTopicListeners order0 topic w = Ok (res0, w) ∧
        getTopicListeners order1 topic w1 = Ok (res1, w1) ∧
        res1 ≡ₚ l :: res0.
Proof.
  intros Hfresh. eexists _, _. split; [apply AddTopicListener_eq|].
  intros order0 order1 Ho0 Ho1.
  destruct (getTopicListeners_eq order0 topic _ Ho0) as (res0 & Hget0 & Hres0).
  destruct (getTopicListeners_eq order1 topic _ Ho1) as (res1 & Hget1 & Hres1).
  exists res0, res1. split; [done|]. split; [done|].
  rewrite Hres1, Hres0, bucket_of_added.
  by rewrite map_to_list_insert.
Qed.

(** X24.  [AddTopicListener] on one topic leaves every other topic
    alone: its bucket is the same and [getTopicListeners] returns the
    same list for it. *)
Theorem add_leaves_other_topics topic topic' l w :
  topic' ≠ topic →
  ∃ i w1,
    AddTopicListener NewId topic l w = Ok (i, w1) ∧
    topicListeners (rcs w1) !! topic' = topicListeners (rcs w) !! topic' ∧
    ∀ order, ∃ res,
      getTopicListeners order topic' w = Ok (res, w) ∧
      getTopicListeners order topic' w1 = Ok (res, w1).
Proof.
  intros Hne. eexists _, _. split; [apply AddTopicListener_eq|].
  assert (topicListeners (rcs (added NewId topic l w)) !! topic'
          = topicListeners (rcs w) !! topic') as Hsame.
  { unfold added; simpl. by rewrite lookup_insert_ne. }
  split; [done|]. intros order.
  unfold getTopicListeners, bind, gets, ret. rewrite Hsame.
  destruct (topicListeners (rcs w) !! topic'); eauto.
Qed.

(** X25.  [getTopicListeners] never changes the world.  For a topic
    without a bucket it returns the empty list; otherwise it returns one
    listener per entry of the bucket, and two walks in different orders
    return the same listeners up to their order. *)
Theorem getTopicListeners_snapshot topic w :
  (topicListeners (rcs w) !! topic = None →
   ∀ order, getTopicListeners order topic w = Ok ([], w)) ∧
  (∀ order1 order2,
     range_order (bucket_of topic w) order1 →
     range_order (bucket_of topic w) order2 →
     ∃ res1 res2,
       getTopicListeners order1 topic w = Ok (res1, w) ∧
       getTopicListeners order2 topic w = Ok (res2, w) ∧
       res1 ≡ₚ res2 ∧ length res1 = size (bucket_of topic w)).
Proof.
  split.
  - intros Hnone order. unfold getTopicListeners, bind, gets, ret.
    by rewrite Hnone.
  - intros order1 order2 Ho1 Ho2.
    destruct (getTopicListeners_eq order1 topic w Ho1) as (res1 & Hg1 & Hr1).
    destruct (getTopicListeners_eq order2 topic w Ho2) as (res2 & Hg2 & Hr2).
    exists res1, res2. split; [done|]. split; [done|].
    split; [by rewrite Hr1, Hr2|].
    by rewrite Hr1, !length_fmap, length_map_to_list.
Qed.
End RegistryOps.

(** ** The further properties at concrete worlds *)

Lemma counter_NewId_inj : Inj (=) (=) counter_NewId.
Proof.
  intros j k Hjk. unfold counter_NewId in Hjk. simpl in Hjk.
  injection Hjk as Hjk. by apply (inj pretty).
Defined.

Lemma reachable_leading : reachable counter_NewId leading.
Proof.
  apply (reach_call _ CallResume (fresh elected false)).
  - apply reach_new.
  - vm_compute. reflexivity.
Defined.

Lemma reachable_two_topics : reachable counter_NewId two_topics.
Proof.
  apply (reach_call _ (CallAddTopicListener InvitationTopic "onInvite")
           (added counter_NewId PingTopic "onPing" (fresh follower false))).
  - apply (reach_call _ (CallAddTopicListener PingTopic "onPing")
             (fresh follower false)).
    + apply reach_new.
    + vm_compute. reflexivity.
  - vm_compute. reflexivity.
Defined.

Lemma range_two_topics_ping_first :
  range_order (topicListeners (rcs two_topics)) [PingTopic; InvitationTopic].
Proof.
  unfold range_order. vm_compute.
  first [reflexivity | apply perm_swap].
Defined.

Lemma range_two_topics_invitation_first :
  range_order (topicListeners (rcs two_topics)) [InvitationTopic; PingTopic].
Proof.
  unfold range_order. vm_compute.
  first [reflexivity | apply perm_swap].
Defined.

Lemma success_excludes_error_witness :
  IsSuccess "status" {[ "status" := VString "OK"; "err" := VString "x" ]}
  = true ∧
  Error "status" {[ "status" := VString "OK"; "err" := VString "x" ]} = "".
Proof.
  split; [vm_compute; reflexivity|].
  apply (proj1 (success_excludes_error "status" _)). vm_compute. reflexivity.
Defined.

Lemma Error_without_message_witness :
  Error "status" {[ "status" := VString "FAIL" ]} = "FAIL: ".
Proof.
  apply (Error_without_message "status" _ (VString "FAIL"));
    vm_compute; reflexivity.
Defined.

Lemma other_keys_ignored_witness :
  IsSuccess "status" (<["took" := VInt 12]> {[ "status" := VString "OK" ]})
  = IsSuccess "status" {[ "status" := VString "OK" ]} ∧
  Error "status" (<["took" := VInt 12]> {[ "status" := VString "OK" ]})
  = Error "status" {[ "status" := VString "OK" ]} ∧
  IsSuccess "status" (delete "took" {[ "status" := VString "OK" ]})
  = IsSuccess "status" {[ "status" := VString "OK" ]} ∧
  Error "status" (delete "took" {[ "status" := VString "OK" ]})
  = Error "status" {[ "status" := VString "OK" ]}.
Proof.
  apply (other_keys_ignored "status" _ "took" (VInt 12)); discriminate.
Defined.

Lemma non_text_status_neither_witness :
  IsSuccess "status" {[ "status" := VInt 200 ]} = false ∧
  Error "status" {[ "status" := VInt 200 ]} = "".
Proof.
  apply (non_text_status_neither "status" _ (VInt 200)).
  - vm_compute. reflexivity.
  - right. right. exists 200%Z. reflexivity.
Defined.

Lemma only_done_is_open_witness :
  (∀ a, chans leading !! a = Some Open →
        done (rcs leading) = Some a ∧ active (rcs leading) = true) ∧
  (active (rcs leading) = false → Forall (λ c, c = Closed) (chans leading)).
Proof. exact (only_done_is_open counter_NewId leading reachable_leading). Defined.

Lemma pipelines_stopped_or_current_witness :
  SendLoop (Some 0) ∈ started leading ∧
  ∃ a, watched (SendLoop (Some 0)) = Some a ∧
       (chans leading !! a = Some Closed ∨
        (chans leading !! a = Some Open ∧ done (rcs leading) = Some a ∧
         active (rcs leading) = true)).
Proof.
  assert (SendLoop (Some 0) ∈ started leading) as Hin.
  { apply list_elem_of_In. simpl. auto. }
  split; [exact Hin|].
  exact (pipelines_stopped_or_current counter_NewId leading reachable_leading
           (SendLoop (Some 0)) Hin).
Defined.

Lemma one_send_pipeline_per_generation_witness :
  filter is_send (started leading)
  = (λ a, SendLoop (Some a)) <$> seq 0 (length (chans leading)) ∧
  sends leading = length (chans leading) ∧ (pings leading ≤ sends leading)%nat.
Proof.
  exact (one_send_pipeline_per_generation counter_NewId leading
           reachable_leading).
Defined.

Lemma leadership_flip_fresh_signal_witness :
  ∃ a a' w1 w2,
    done (rcs leading) = Some a ∧ pause leading = Ok ((), w1) ∧
    resume w1 = Ok ((), w2) ∧ done (rcs w2) = Some a' ∧ a ≠ a' ∧
    chans w2 !! a = Some Closed ∧ chans w2 !! a' = Some Open ∧
    sends w2 = S (sends leading) ∧
    SendLoop (Some a') ∈ started w2.
Proof.
  apply (leadership_flip_fresh_signal counter_NewId leading reachable_leading).
  reflexivity.
Defined.


Lemma Start_follows_leadership_witness :
  ∃ w', Start (fresh elected false) = Ok (None, w') ∧
        leaderListenerId (rcs w')
        = (AddClusterLeaderChangedListener (server (fresh elected false))).1 ∧
        active (rcs w')
        = IsLeader
            (AddClusterLeaderChangedListener (server (fresh elected false))).2.
Proof.
  apply (Start_follows_leadership counter_NewId). apply reach_new.
Defined.

Lemma onClusterLeaderChange_follows_leadership_witness :
  ∃ w', onClusterLeaderChange leading = Ok ((), w') ∧
        active (rcs w') = IsLeader (server leading) ∧
        (active (rcs leading) = IsLeader (server leading) → w' = leading).
Proof.
  exact (onClusterLeaderChange_follows_leadership counter_NewId leading
           reachable_leading).
Defined.

Lemma lifecycle_calls_keep_registry_witness :
  same_registry two_topics (unregistered two_topics).
Proof.
  apply (lifecycle_calls_keep_registry counter_NewId CallShutdown).
  - reflexivity.
  - vm_compute. reflexivity.
Defined.

Lemma registry_calls_keep_lifecycle_witness :
  same_lifecycle leading (added counter_NewId PingTopic "onPing" leading) ∧
  server (added counter_NewId PingTopic "onPing" leading) = server leading ∧
  leaderListenerId (rcs (added counter_NewId PingTopic "onPing" leading))
  = leaderListenerId (rcs leading).
Proof.
  apply (registry_calls_keep_lifecycle counter_NewId
           (CallAddTopicListener PingTopic "onPing")).
  - reflexivity.
  - vm_compute. reflexivity.
Defined.

Lemma Shutdown_twice_witness :
  ∃ w1 w2,
    Shutdown leading = Ok (None, w1) ∧ Shutdown w1 = Ok (None, w2) ∧
    leaderListenerId (rcs w1) = leaderListenerId (rcs leading) ∧
    rcs w2 = rcs w1 ∧ chans w2 = chans w1 ∧ started w2 = started w1 ∧
    server w2
    = RemoveClusterLeaderChangedListener (leaderListenerId (rcs leading))
                                         (server w1).
Proof. exact (Shutdown_twice counter_NewId leading reachable_leading). Defined.

Lemma registry_buckets_pruned_witness :
  ∃ m, topicListeners (rcs two_topics) !! PingTopic = Some (Some m) ∧
       m ≠ ∅ ∧ ∀ k x, m !! k = Some x → id x = k.
Proof.
  destruct (topicListeners (rcs two_topics) !! PingTopic) as [e|] eqn:He.
  - destruct (registry_buckets_pruned counter_NewId two_topics
                reachable_two_topics PingTopic e He) as (m & Hm & Hne & Hid).
    exists m. rewrite Hm. split; [reflexivity|]. split; assumption.
  - vm_compute in He. discriminate He.
Defined.

Lemma listener_id_in_one_bucket_witness :
  entries_lookup (Some (bucket_of InvitationTopic two_topics)) "id-0" = None.
Proof.
  destruct (entries_lookup (Some (bucket_of InvitationTopic two_topics)) "id-0")
    as [x|] eqn:Hx; [|reflexivity].
  assert (PingTopic = InvitationTopic) as Heq.
  { apply (listener_id_in_one_bucket counter_NewId two_topics
             PingTopic InvitationTopic
             (Some (bucket_of PingTopic two_topics))
             (Some (bucket_of InvitationTopic two_topics)) "id-0"
             counter_NewId_inj reachable_two_topics).
    - vm_compute. reflexivity.
    - vm_compute. reflexivity.
    - vm_compute. eexists. reflexivity.
    - rewrite Hx. eexists. reflexivity. }
  discriminate Heq.
Defined.

Lemma remove_known_id_witness :
  ∃ w', RemoveTopicListener [PingTopic; InvitationTopic] "id-0" two_topics
        = Ok ((), w') ∧
        unknown_id "id-0" (topicListeners (rcs w')) ∧
        bucket_of PingTopic w' = delete "id-0" (bucket_of PingTopic two_topics) ∧
        (topicListeners (rcs w') !! PingTopic = None
         ↔ delete "id-0" (bucket_of PingTopic two_topics) = ∅) ∧
        (∀ topic', topic' ≠ PingTopic →
           topicListeners (rcs w') !! topic'
           = topicListeners (rcs two_topics) !! topic').
Proof.
  apply (remove_known_id two_topics PingTopic "id-0").
  - split.
    + vm_compute. eexists. reflexivity.
    + intros topic' e Hne He.
      destruct (entries_lookup e "id-0") as [x|] eqn:Hx; [|reflexivity].
      destruct Hne.
      apply (reachable_ids_unique counter_NewId two_topics counter_NewId_inj
               reachable_two_topics topic' PingTopic e
               (Some (bucket_of PingTopic two_topics)) "id-0" He).
      * vm_compute. reflexivity.
      * rewrite Hx. eexists. reflexivity.
      * vm_compute. eexists. reflexivity.
  - exact range_two_topics_ping_first.
Defined.

Lemma remove_order_irrelevant_witness :
  RemoveTopicListener [PingTopic; InvitationTopic] "id-1" two_topics
  = RemoveTopicListener [InvitationTopic; PingTopic] "id-1" two_topics.
Proof.
  exact (remove_order_irrelevant counter_NewId two_topics "id-1" _ _
           counter_NewId_inj reachable_two_topics
           range_two_topics_ping_first range_two_topics_invitation_first).
Defined.

Lemma remove_twice_is_remove_once_witness :
  ∃ w', RemoveTopicListener [InvitationTopic; PingTopic] "id-1" two_topics
        = Ok ((), w') ∧
        unknown_id "id-1" (topicListeners (rcs w')) ∧
        ∀ order', RemoveTopicListener order' "id-1" w' = Ok ((), w').
Proof.
  exact (remove_twice_is_remove_once counter_NewId two_topics "id-1" _
           counter_NewId_inj reachable_two_topics
           range_two_topics_invitation_first).
Defined.

Lemma add_then_get_one_more_witness :
  ∃ i w1,
    AddTopicListener counter_NewId PingTopic "onPong" two_topics = Ok (i, w1) ∧
    ∀ order0 order1,
      range_order (bucket_of PingTopic two_topics) order0 →
      range_order (bucket_of PingTopic w1) order1 →
      ∃ res0 res1,
        getTopicListeners order0 PingTopic two_topics = Ok (res0, two_topics) ∧
        getTopicListeners order1 PingTopic w1 = Ok (res1, w1) ∧
        res1 ≡ₚ "onPong" :: res0.
Proof.
  apply (add_then_get_one_more counter_NewId PingTopic "onPong" two_topics).
  vm_compute. reflexivity.
Defined.

Lemma add_leaves_other_topics_witness :
  ∃ i w1,
    AddTopicListener counter_NewId PingTopic "onPong" two_topics = Ok (i, w1) ∧
    topicListeners (rcs w1) !! InvitationTopic
    = topicListeners (rcs two_topics) !! InvitationTopic ∧
    ∀ order, ∃ res,
      getTopicListeners order InvitationTopic two_topics
      = Ok (res, two_topics) ∧
      getTopicListeners order InvitationTopic w1 = Ok (res, w1).
Proof.
  apply (add_leaves_other_topics counter_NewId PingTopic InvitationTopic
           "onPong" two_topics).
  discriminate.
Defined.
